(** * Query optimizer for a simple DB: parser, selectivity scorer, optimizer

    A shallow embedding of [sql_parser.py], [selectivity_scorer.py] and
    [query_optimizer.py], and the properties of the specification proved
    (or refuted) on it.

    Python [str] values are modelled as lists of characters in the Latin-1
    range (code points 0..255, the type [ascii]).  Python floats are the
    binary64 numbers of [SpecFloat]. *)

From Stdlib Require Import Ascii String.
From Stdlib Require Import List Bool Arith ZArith Lia.
From Stdlib Require Import Permutation Sorted.
From Stdlib Require Import Floats.SpecFloat.
From Stdlib Require Import DecimalString.
Import ListNotations.

Set Implicit Arguments.

(** ** Characters and text *)

Definition text := list ascii.

(** A string literal as a text. *)
Definition T (s : string) : text := list_ascii_of_string s.

Definition code (c : ascii) : nat := nat_of_ascii c.

Definition between (lo hi : nat) (c : ascii) : bool :=
  (lo <=? code c) && (code c <=? hi).

(** [str.isspace] / the regex class [\s] on code points below 256:
    TAB..CR, FS..US, SPACE, NEL and NBSP. *)
Definition is_space (c : ascii) : bool :=
  between 9 13 c || between 28 32 c || (code c =? 133) || (code c =? 160).

Definition is_digit (c : ascii) : bool := between 48 57 c.

(** [str.isalnum] on code points below 256. *)
Definition is_alnum (c : ascii) : bool :=
  is_digit c || between 65 90 c || between 97 122 c
  || (code c =? 170) || (code c =? 178) || (code c =? 179) || (code c =? 181)
  || (code c =? 185) || (code c =? 186) || between 188 190 c
  || between 192 214 c || between 216 246 c || between 248 255 c.

(** The regex class [\w]. *)
Definition is_word (c : ascii) : bool := is_alnum c || (code c =? 95).

(** The regex class [[=<>!]]. *)
Definition is_opchar (c : ascii) : bool :=
  (code c =? 61) || (code c =? 60) || (code c =? 62) || (code c =? 33).

(** The regex class of the two quote characters (single and double). *)
Definition is_quote (c : ascii) : bool := (code c =? 39) || (code c =? 34).

(** The regex class of the value characters: neither quote nor [\s]. *)
Definition is_valchar (c : ascii) : bool := negb (is_quote c || is_space c).

(** The regex [.] (no DOTALL): anything but a newline. *)
Definition is_dot (c : ascii) : bool := negb (code c =? 10).

(** [str.lower] on one character below 256. *)
Definition lower_char (c : ascii) : ascii :=
  if between 65 90 c || between 192 214 c || between 216 222 c
  then ascii_of_nat (code c + 32) else c.

Definition lower (s : text) : text := map lower_char s.

Definition ascii_eqb (a b : ascii) : bool := Ascii.eqb a b.

Fixpoint text_eqb (a b : text) : bool :=
  match a, b with
  | [], [] => true
  | x :: a', y :: b' => ascii_eqb x y && text_eqb a' b'
  | _, _ => false
  end.

(** [str.strip()] *)
Fixpoint lstrip (s : text) : text :=
  match s with
  | c :: s' => if is_space c then lstrip s' else s
  | [] => []
  end.

Definition rstrip (s : text) : text := rev (lstrip (rev s)).

Definition strip (s : text) : text := rstrip (lstrip s).

(** ** Regular expressions (the fragment of [re] the parser uses)

    A backtracking matcher in continuation-passing style, with greedy
    quantifiers on character classes, numbered capture groups and
    backreferences, as Python's [re] runs the three patterns of the parser. *)

Inductive regex :=
| REps
| RChar (p : ascii -> bool)
| RRep (p : ascii -> bool) (lo : nat) (hi : option nat)
| RSeq (r1 r2 : regex)
| RGroup (n : nat) (r : regex)
| RBackref (n : nat).

Definition groups := list (nat * text).

Fixpoint get_group (n : nat) (g : groups) : option text :=
  match g with
  | [] => None
  | (i, t) :: g' => if i =? n then Some t else get_group n g'
  end.

Definition set_group (n : nat) (t : text) (g : groups) : groups := (n, t) :: g.

Fixpoint strip_prefix (t s : text) : option text :=
  match t, s with
  | [], _ => Some s
  | x :: t', y :: s' => if ascii_eqb x y then strip_prefix t' s' else None
  | _ :: _, [] => None
  end.

Definition may_take (hi : option nat) : bool :=
  match hi with Some 0 => false | _ => true end.

Definition dec_hi (hi : option nat) : option nat :=
  match hi with Some n => Some (pred n) | None => None end.

(** Greedy [p{lo,hi}]: the longest run first, then shorter ones. *)
Fixpoint rep (A : Type) (p : ascii -> bool) (hi : option nat) (lo : nat)
    (s : text) (k : text -> option A) : option A :=
  let stop := if lo =? 0 then k s else None in
  match s with
  | c :: s' =>
      if p c && may_take hi then
        match rep p (dec_hi hi) (pred lo) s' k with
        | Some x => Some x
        | None => stop
        end
      else stop
  | [] => stop
  end.

Fixpoint rmatch (A : Type) (r : regex) (s : text) (g : groups)
    (k : text -> groups -> option A) : option A :=
  match r with
  | REps => k s g
  | RChar p =>
      match s with
      | c :: s' => if p c then k s' g else None
      | [] => None
      end
  | RRep p lo hi => rep p hi lo s (fun s' => k s' g)
  | RSeq a b => rmatch a s g (fun s' g' => rmatch b s' g' k)
  | RGroup n a =>
      rmatch a s g
        (fun s' g' => k s' (set_group n (firstn (length s - length s') s) g'))
  | RBackref n =>
      match get_group n g with
      | Some t =>
          match strip_prefix t s with
          | Some s' => k s' g
          | None => None
          end
      | None => None
      end
  end.

(** [re.match]: the groups and the unread rest of the text. *)
Definition re_match (r : regex) (s : text) : option (groups * text) :=
  rmatch r s [] (fun s' g => Some (g, s')).

(** [re.search]: the leftmost position where the pattern matches. *)
Fixpoint re_search (r : regex) (s : text) : option (groups * text) :=
  match re_match r s with
  | Some x => Some x
  | None =>
      match s with
      | [] => None
      | _ :: s' => re_search r s'
      end
  end.

(** [re.split] for a pattern without groups that never matches the empty
    text: [skip] counts the characters of the separator still to drop. *)
Fixpoint split_go (r : regex) (s : text) (skip : nat) (cur : text)
    : list text :=
  match skip with
  | S n =>
      match s with
      | [] => [rev cur]
      | _ :: s' => split_go r s' n cur
      end
  | 0 =>
      match s with
      | [] => [rev cur]
      | c :: s' =>
          match re_match r s with
          | Some (_, rest) =>
              match length s - length rest with
              | 0 => split_go r s' 0 (c :: cur)
              | S n => rev cur :: split_go r s' n []
              end
          | None => split_go r s' 0 (c :: cur)
          end
      end
  end.

Definition re_split (r : regex) (s : text) : list text := split_go r s 0 [].

(** Pattern building: a literal character under [re.IGNORECASE], a literal
    character, a keyword, and the usual quantifiers. *)
Definition ci (c : ascii) : regex :=
  RChar (fun x => ascii_eqb (lower_char x) (lower_char c)).

Definition lit (c : ascii) : regex := RChar (ascii_eqb c).

Fixpoint keyword (w : text) : regex :=
  match w with
  | [] => REps
  | c :: w' => RSeq (ci c) (keyword w')
  end.

Definition plus (p : ascii -> bool) : regex := RRep p 1 None.
Definition star (p : ascii -> bool) : regex := RRep p 0 None.
Definition opt (p : ascii -> bool) : regex := RRep p 0 (Some 1).

Fixpoint seq (rs : list regex) : regex :=
  match rs with
  | [] => REps
  | r :: rs' => RSeq r (seq rs')
  end.

(** ** Python's [int] and [float] on a text

    [int(s)] reads an optional sign and decimal digits, with single
    underscores between digits.  [float(s)] reads an optional sign, then a
    decimal number with an optional fraction and exponent, or [inf],
    [infinity] or [nan]; the result is the binary64 number nearest to the
    decimal.  (The interpreter's limit on the length of an integer literal
    is not modelled.) *)

Definition digit_val (c : ascii) : N := N.of_nat (code c - 48).

(** [digit (["_"] digit)*]: the value read and the number of digits.
    [after] tells whether the previous character was a digit. *)
Fixpoint digitpart (s : text) (acc : N) (n : nat) (after : bool)
    : option (N * nat) :=
  match s with
  | [] => if after then Some (acc, n) else None
  | c :: s' =>
      if is_digit c then digitpart s' (10 * acc + digit_val c)%N (S n) true
      else if (code c =? 95) && after then digitpart s' acc n false
      else None
  end.

Definition read_sign (s : text) : bool * text :=
  match s with
  | c :: s' =>
      if code c =? 45 then (true, s')
      else if code c =? 43 then (false, s')
      else (false, s)
  | [] => (false, [])
  end.

Definition py_int (s : text) : option Z :=
  let (neg, body) := read_sign s in
  match digitpart body 0%N 0 false with
  | Some (v, _) => Some (if neg then (- Z.of_N v)%Z else Z.of_N v)
  | None => None
  end.

(** The text before the first character in class [p], and the text after
    it when there is one. *)
Fixpoint split_at (p : ascii -> bool) (s : text) : text * option text :=
  match s with
  | [] => ([], None)
  | c :: s' =>
      if p c then ([], Some s')
      else let (a, b) := split_at p s' in (c :: a, b)
  end.

Definition is_point (c : ascii) : bool := code c =? 46.
Definition is_exp (c : ascii) : bool := (code c =? 101) || (code c =? 69).

Definition prec64 : Z := 53.
Definition emax64 : Z := 1024.

Definition pyfloat := spec_float.

(** The binary64 number nearest to [(-1)^neg * m * 10^e]. *)
Definition float_of_decimal (neg : bool) (m : N) (e : Z) : pyfloat :=
  match m with
  | N0 => S754_zero neg
  | Npos p =>
      match e with
      | Zneg q =>
          SFdiv prec64 emax64 (S754_finite neg p 0)
                (S754_finite false (Pos.pow 10 q) 0)
      | _ => binary_round prec64 emax64 neg (p * Z.to_pos (10 ^ e)) 0
      end
  end.

(** [[digitpart] "." digitpart | digitpart ["."]]: mantissa and the number
    of digits of the fraction. *)
Definition read_number (s : text) : option (N * nat) :=
  match split_at is_point s with
  | (ip, None) =>
      match digitpart ip 0%N 0 false with
      | Some (v, _) => Some (v, 0)
      | None => None
      end
  | (ip, Some fp) =>
      match ip, fp with
      | [], [] => None
      | _, [] =>
          match digitpart ip 0%N 0 false with
          | Some (v, _) => Some (v, 0)
          | None => None
          end
      | [], _ => digitpart fp 0%N 0 false
      | _, _ =>
          match digitpart ip 0%N 0 false with
          | Some (v, _) => digitpart fp v 0 false
          | None => None
          end
      end
  end.

Definition read_exponent (s : option text) : option Z :=
  match s with
  | None => Some 0%Z
  | Some e => py_int e
  end.

Definition py_float (s : text) : option pyfloat :=
  let (neg, body) := read_sign s in
  let low := lower body in
  if text_eqb low (T "inf") || text_eqb low (T "infinity")
  then Some (S754_infinity neg)
  else if text_eqb low (T "nan") then Some S754_nan
  else
    let (num, ex) := split_at is_exp body in
    match read_number num, read_exponent ex with
    | Some (m, nfrac), Some e =>
        Some (float_of_decimal neg m (e - Z.of_nat nfrac))
    | _, _ => None
    end.

(** ** sql_parser.py *)

(** The [Any] of [Condition.value]: what the parser can put there. *)
Inductive literal :=
| VInt (n : Z)
| VFloat (f : pyfloat)
| VStr (s : text).

Record Condition := mkCondition {
  column : text;
  operator : text;
  value : literal;
  original_text : text
}.

Record ParsedQuery := mkParsedQuery {
  table_name : text;
  conditions : list Condition;
  original_query : text
}.

Inductive exn := ValueError (msg : text).

Inductive result (A : Type) :=
| Ok (a : A)
| Raise (e : exn).
Arguments Ok {A} a.
Arguments Raise {A} e.

(** [SELECT\s+\*\s+FROM\s+(\w+)], with [re.IGNORECASE] *)
Definition select_pattern : regex :=
  seq [keyword (T "SELECT"); plus is_space; lit "*"; plus is_space;
       keyword (T "FROM"); plus is_space; RGroup 1 (plus is_word)].

(** [WHERE\s+(.+)], with [re.IGNORECASE] *)
Definition where_pattern : regex :=
  seq [keyword (T "WHERE"); plus is_space; RGroup 1 (plus is_dot)].

(** [(\w+)\s*([=<>!]+)\s*(['q]?)([^'q\s]+)\3] where [q] is the double
    quote *)
Definition condition_pattern : regex :=
  seq [RGroup 1 (plus is_word); star is_space; RGroup 2 (plus is_opchar);
       star is_space; RGroup 3 (opt is_quote); RGroup 4 (plus is_valchar);
       RBackref 3].

(** [\s+AND\s+], with [re.IGNORECASE] *)
Definition and_pattern : regex :=
  seq [plus is_space; keyword (T "AND"); plus is_space].

(** [match.group(n)] of a group that took part in the match. *)
Definition group (n : nat) (g : groups) : text :=
  match get_group n g with
  | Some t => t
  | None => []
  end.

Definition contains_point (s : text) : bool := existsb is_point s.

(** The clean-up of the value token: lines 121-131. *)
Definition convert_value (quote tok : text) : literal :=
  match quote with
  | _ :: _ => VStr tok
  | [] =>
      if contains_point tok then
        match py_float tok with
        | Some f => VFloat f
        | None => VStr tok
        end
      else
        match py_int tok with
        | Some n => VInt n
        | None => VStr tok
        end
  end.

Definition _parse_single_condition (condition_str : text)
    : option Condition :=
  match re_match condition_pattern (strip condition_str) with
  | None => None
  | Some (g, _) =>
      Some {| column := group 1 g;
              operator := group 2 g;
              value := convert_value (group 3 g) (group 4 g);
              original_text := strip condition_str |}
  end.

Fixpoint parse_parts (parts : list text) : list Condition :=
  match parts with
  | [] => []
  | part :: rest =>
      match strip part with
      | [] => parse_parts rest
      | p =>
          match _parse_single_condition p with
          | Some c => c :: parse_parts rest
          | None => parse_parts rest
          end
      end
  end.

Definition _parse_conditions (where_clause : text) : list Condition :=
  parse_parts (re_split and_pattern where_clause).

Definition InvalidSelect : exn :=
  ValueError (T "Invalid SELECT query format. Expected: SELECT * FROM table_name").

Definition MissingWhere : exn :=
  ValueError (T "Query must contain a WHERE clause").

Definition parse (query : text) : result ParsedQuery :=
  let query := strip query in
  match re_search select_pattern query with
  | None => Raise InvalidSelect
  | Some (tg, _) =>
      match re_search where_pattern query with
      | None => Raise MissingWhere
      | Some (wg, _) =>
          Ok {| table_name := group 1 tg;
                conditions := _parse_conditions (group 1 wg);
                original_query := query |}
      end
  end.

(** ** selectivity_scorer.py *)

(** A dict with text keys, in insertion order; [d.get(key, default)]. *)
Definition dict (V : Type) := list (text * V).

Fixpoint dict_get (V : Type) (d : dict V) (key : text) (default : V) : V :=
  match d with
  | [] => default
  | (k, v) :: d' => if text_eqb k key then v else dict_get d' key default
  end.

(** A float literal with one decimal: [tenths n] is the float [n/10]. *)
Definition tenths (n : N) : pyfloat := float_of_decimal false n (-1).

Definition fmul (a b : pyfloat) : pyfloat := SFmul prec64 emax64 a b.
Definition flt (a b : pyfloat) : bool := SFltb a b.
Definition fle (a b : pyfloat) : bool := SFleb a b.
Definition feq (a b : pyfloat) : bool := SFeqb a b.

Definition selectivity_rules : dict pyfloat :=
  [ (T "=", tenths 1); (T "==", tenths 1);
    (T ">", tenths 3); (T ">=", tenths 3);
    (T "<", tenths 3); (T "<=", tenths 3);
    (T "!=", tenths 5); (T "<>", tenths 5);
    (T "LIKE", tenths 7); (T "ILIKE", tenths 7) ].

Definition column_modifiers : dict pyfloat :=
  [ (T "id", tenths 1); (T "email", tenths 1); (T "username", tenths 1);
    (T "ssn", tenths 1); (T "phone", tenths 1);
    (T "country", tenths 2); (T "state", tenths 2); (T "city", tenths 2);
    (T "department", tenths 2); (T "category", tenths 2);
    (T "gender", tenths 4); (T "status", tenths 4); (T "type", tenths 4);
    (T "level", tenths 4);
    (T "age", tenths 6); (T "salary", tenths 6); (T "score", tenths 6);
    (T "rating", tenths 6) ].

Definition value_modifiers : dict pyfloat :=
  [ (T "US", tenths 3); (T "USA", tenths 3); (T "United States", tenths 3);
    (T "active", tenths 3); (T "enabled", tenths 3); (T "true", tenths 3);
    (T "1", tenths 3);
    (T "18", tenths 4); (T "21", tenths 4); (T "25", tenths 4);
    (T "30", tenths 4); (T "35", tenths 4); (T "40", tenths 4);
    (T "50", tenths 4) ].

(** [str(n)] for an int. *)
Definition str_int (n : Z) : text := T (NilZero.string_of_int (Z.to_int n)).

Record SelectivityScore := mkSelectivityScore {
  condition : Condition;
  score : pyfloat;
  reasoning : text
}.

(** [sep.join(parts)] *)
Fixpoint join (sep : text) (parts : list text) : text :=
  match parts with
  | [] => []
  | [p] => p
  | p :: rest => p ++ sep ++ join sep rest
  end.

Definition member (x : text) (l : list text) : bool := existsb (text_eqb x) l.

(** [sorted(l, key=key)] on float keys: Python's sort is stable and
    compares keys with [<] only; each element is placed after the elements
    before it that are not greater. *)
Fixpoint insert_by (A : Type) (key : A -> pyfloat) (x : A) (l : list A)
    : list A :=
  match l with
  | [] => [x]
  | y :: l' =>
      if flt (key x) (key y) then x :: y :: l' else y :: insert_by key x l'
  end.

Definition sorted (A : Type) (key : A -> pyfloat) (l : list A) : list A :=
  fold_left (fun acc x => insert_by key x acc) l [].

Section Scorer.

(** [str(f)] for a float: the interpreter's shortest decimal that reads back
    as [f]; taken as given. *)
Variable float_str : pyfloat -> text.

Definition str_value (v : literal) : text :=
  match v with
  | VInt n => str_int n
  | VFloat f => float_str f
  | VStr s => s
  end.

Definition _generate_reasoning (c : Condition)
    (base_score column_modifier value_modifier : pyfloat) : text :=
  let op_part :=
    if member (operator c) [T "="; T "=="] then
      T "equality condition (highly selective)"
    else if member (operator c) [T ">"; T ">="; T "<"; T "<="] then
      T "range condition (moderately selective)"
    else if member (operator c) [T "!="; T "<>"] then
      T "inequality condition (less selective)"
    else T "operator '" ++ operator c ++ T "' (moderate selectivity)" in
  let col_part :=
    if fle column_modifier (tenths 1) then
      T "column '" ++ column c ++ T "' has high cardinality"
    else if fle column_modifier (tenths 2) then
      T "column '" ++ column c ++ T "' has medium cardinality"
    else T "column '" ++ column c ++ T "' has low cardinality" in
  let val_part :=
    if flt value_modifier (tenths 10) then
      [T "value '" ++ str_value (value c) ++ T "' is common (less selective)"]
    else if flt (tenths 10) value_modifier then
      [T "value '" ++ str_value (value c)
         ++ T "' is uncommon (more selective)"]
    else [] in
  join (T "; ") ([op_part; col_part] ++ val_part).

Definition base_score_of (c : Condition) : pyfloat :=
  dict_get selectivity_rules (operator c) (tenths 5).

Definition column_modifier_of (c : Condition) : pyfloat :=
  dict_get column_modifiers (lower (column c)) (tenths 3).

Definition value_modifier_of (c : Condition) : pyfloat :=
  dict_get value_modifiers (lower (str_value (value c))) (tenths 10).

Definition score_condition (c : Condition) : SelectivityScore :=
  let base_score := base_score_of c in
  let column_modifier := column_modifier_of c in
  let value_modifier := value_modifier_of c in
  let final_score := fmul (fmul base_score column_modifier) value_modifier in
  {| condition := c;
     score := final_score;
     reasoning :=
       _generate_reasoning c base_score column_modifier value_modifier |}.


(** ** query_optimizer.py *)

(** The values stored in the dicts of the execution plan. *)
Inductive pyobj :=
| PInt (n : Z)
| PStr (s : text)
| PVal (v : literal).

Definition plan_step := dict pyobj.

Record OptimizedQuery := mkOptimizedQuery {
  oq_original_query : ParsedQuery;
  optimized_conditions : list Condition;
  execution_plan : list plan_step;
  optimization_summary : text
}.

Definition nl : text := [ascii_of_nat 10].

(** [==] of two values: an int and a float are equal when they are the same
    number; a text is equal only to the same text.  (A NaN is unequal to
    itself; the parser never produces one.) *)
Definition float_eq_int (f : pyfloat) (n : Z) : bool :=
  match f with
  | S754_zero _ => (n =? 0)%Z
  | S754_finite s m e =>
      let sm := if s then Zneg m else Zpos m in
      match e with
      | Zneg q => (n * Zpos (Pos.pow 2 q) =? sm)%Z
      | _ => (sm * 2 ^ e =? n)%Z
      end
  | _ => false
  end.

Definition value_eqb (a b : literal) : bool :=
  match a, b with
  | VInt x, VInt y => (x =? y)%Z
  | VFloat x, VFloat y => feq x y
  | VInt x, VFloat y => float_eq_int y x
  | VFloat x, VInt y => float_eq_int x y
  | VStr x, VStr y => text_eqb x y
  | _, _ => false
  end.

(** [==] of two Conditions (the dataclass compares field by field). *)
Definition condition_eqb (a b : Condition) : bool :=
  text_eqb (column a) (column b) && text_eqb (operator a) (operator b)
  && value_eqb (value a) (value b)
  && text_eqb (original_text a) (original_text b).

Fixpoint conditions_eqb (a b : list Condition) : bool :=
  match a, b with
  | [], [] => true
  | x :: a', y :: b' => condition_eqb x y && conditions_eqb a' b'
  | _, _ => false
  end.

(** [enumerate(l, start)] *)
Fixpoint enumerate (A : Type) (l : list A) (start : nat) : list (nat * A) :=
  match l with
  | [] => []
  | x :: l' => (start, x) :: enumerate l' (S start)
  end.

Definition str_nat (n : nat) : text := str_int (Z.of_nat n).

Definition _apply_optimization_rules (conds : list Condition)
    : list Condition :=
  let scored_conditions := map score_condition conds in
  let sorted_scored_conditions := sorted score scored_conditions in
  map condition sorted_scored_conditions.

Definition filter_step (ic : nat * Condition) : plan_step :=
  let (i, c) := ic in
  [ (T "step", PInt (Z.of_nat i));
    (T "operation", PStr (T "FILTER"));
    (T "condition", PStr (original_text c));
    (T "column", PStr (column c));
    (T "operator", PStr (operator c));
    (T "value", PVal (value c));
    (T "description", PStr (T "Apply filter: " ++ original_text c)) ].

Definition _create_execution_plan (conds : list Condition) : list plan_step :=
  map filter_step (enumerate conds 1)
  ++ [ [ (T "step", PInt (Z.of_nat (length conds + 1)));
         (T "operation", PStr (T "RETURN"));
         (T "description", PStr (T "Return filtered results")) ] ].

Definition numbered_line (ic : nat * Condition) : text :=
  let (i, c) := ic in
  T "  " ++ str_nat i ++ T ". " ++ original_text c ++ nl.

Definition _generate_optimization_summary
    (original_conditions optimized : list Condition) : text :=
  if length original_conditions <=? 1 then
    T "No optimization needed - single condition or no conditions"
  else
    let order_changed := negb (conditions_eqb original_conditions optimized) in
    if negb order_changed then
      T "No optimization needed - conditions already in optimal order"
    else
      T "Query optimization applied:" ++ nl
      ++ T "- Reordered " ++ str_nat (length original_conditions)
      ++ T " conditions for better performance" ++ nl
      ++ T "- Most selective conditions will be applied first" ++ nl
      ++ T "- Expected performance improvement: 20-80% (depending on data distribution)"
      ++ nl ++ nl
      ++ T "Original order:" ++ nl
      ++ concat (map numbered_line (enumerate original_conditions 1))
      ++ nl ++ T "Optimized order:" ++ nl
      ++ concat (map numbered_line (enumerate optimized 1)).

Definition dquote : text := [ascii_of_nat 34].

Definition _create_unoptimized_query (parsed_query : ParsedQuery)
    : OptimizedQuery :=
  {| oq_original_query := parsed_query;
     optimized_conditions := [];
     execution_plan :=
       [ [ (T "step", PInt 1);
           (T "operation", PStr (T "SCAN"));
           (T "description",
            PStr (T "Scan table " ++ dquote ++ table_name parsed_query
                  ++ dquote)) ];
         [ (T "step", PInt 2);
           (T "operation", PStr (T "RETURN"));
           (T "description", PStr (T "Return all results")) ] ];
     optimization_summary := T "No WHERE conditions - full table scan" |}.

Definition optimize (parsed_query : ParsedQuery) : OptimizedQuery :=
  match conditions parsed_query with
  | [] => _create_unoptimized_query parsed_query
  | _ =>
      let optimized :=
        _apply_optimization_rules (conditions parsed_query) in
      {| oq_original_query := parsed_query;
         optimized_conditions := optimized;
         execution_plan := _create_execution_plan optimized;
         optimization_summary :=
           _generate_optimization_summary (conditions parsed_query)
             optimized |}
  end.

End Scorer.

(** ** The reports: [get_optimization_recommendation] and
    [explain_optimization] *)

Section Reports.

Variable float_str : pyfloat -> text.

(** The format [:.3f] of a float: three decimals; taken as given. *)
Variable format_3f : pyfloat -> text.

Definition recommendation_item (isc : nat * SelectivityScore) : text :=
  let (i, scored_cond) := isc in
  str_nat i ++ T ". " ++ original_text (condition scored_cond) ++ T " "
  ++ T "(score: " ++ format_3f (score scored_cond) ++ T ")" ++ nl
  ++ T "   Reasoning: " ++ reasoning scored_cond ++ nl.

Definition get_optimization_recommendation (conds : list Condition) : text :=
  match conds with
  | [] => T "No conditions to optimize"
  | [_] => T "Only one condition - no optimization needed"
  | _ =>
      let scored_conditions := map (score_condition float_str) conds in
      let sorted_conditions := sorted score scored_conditions in
      T "Recommended execution order (most selective first):" ++ nl
      ++ concat (map recommendation_item (enumerate sorted_conditions 1))
  end.

Definition analysis_item (ic : nat * Condition) : text :=
  let (i, c) := ic in
  let sc := score_condition float_str c in
  str_nat i ++ T ". " ++ original_text c ++ nl
  ++ T "   Selectivity Score: " ++ format_3f (score sc) ++ nl
  ++ T "   Reasoning: " ++ reasoning sc ++ nl ++ nl.

Definition explanation_rules : text :=
  T "OPTIMIZATION RULES APPLIED:" ++ nl
  ++ T "1. Selectivity-based reordering: Conditions are reordered based on their selectivity scores" ++ nl
  ++ T "2. Most selective conditions are applied first to reduce the working set early" ++ nl
  ++ T "3. Selectivity is determined by:" ++ nl
  ++ T "   - Operator type (equality > range > inequality)" ++ nl
  ++ T "   - Column cardinality (high cardinality = more selective)" ++ nl
  ++ T "   - Value frequency (common values = less selective)" ++ nl ++ nl.

Definition explanation_benefits : text :=
  T "EXPECTED BENEFITS:" ++ nl
  ++ T "- Reduced I/O operations by filtering early" ++ nl
  ++ T "- Lower memory usage for intermediate results" ++ nl
  ++ T "- Faster query execution (especially with large datasets)" ++ nl
  ++ T "- Better utilization of database indexes (if available)" ++ nl.

Definition explain_optimization (parsed_query : ParsedQuery) : text :=
  match conditions parsed_query with
  | [] =>
      T "No WHERE conditions to optimize. Query will perform a full table scan."
  | _ =>
      T "QUERY OPTIMIZATION EXPLANATION" ++ nl
      ++ repeat "="%char 50 ++ nl ++ nl
      ++ T "Original Query: " ++ original_query parsed_query ++ nl ++ nl
      ++ explanation_rules
      ++ T "CONDITION ANALYSIS:" ++ nl
      ++ concat (map analysis_item (enumerate (conditions parsed_query) 1))
      ++ T "OPTIMIZATION RECOMMENDATION:" ++ nl
      ++ get_optimization_recommendation (conditions parsed_query) ++ nl
      ++ explanation_benefits
  end.

End Reports.

(** ** Declarative reading of the patterns and helper definitions *)

(** [matches r s g s' g']: [r] reads a prefix of [s], leaving [s'], and
    turns the groups [g] into [g']. *)
Inductive matches : regex -> text -> groups -> text -> groups -> Prop :=
| M_eps s g : matches REps s g s g
| M_char p c s g : p c = true -> matches (RChar p) (c :: s) g s g
| M_rep p lo hi run s g :
    forallb p run = true -> lo <= length run ->
    (forall h, hi = Some h -> length run <= h) ->
    matches (RRep p lo hi) (run ++ s) g s g
| M_seq a b s g s1 g1 s2 g2 :
    matches a s g s1 g1 -> matches b s1 g1 s2 g2 ->
    matches (RSeq a b) s g s2 g2
| M_group n a s g s' g' :
    matches a s g s' g' ->
    matches (RGroup n a) s g s'
            (set_group n (firstn (length s - length s') s) g')
| M_backref n t s g :
    get_group n g = Some t -> matches (RBackref n) (t ++ s) g s g.

(** The pattern matches somewhere in the text. *)
Definition occurs (r : regex) (s : text) : Prop :=
  exists pre rest s' g, s = pre ++ rest /\ matches r rest [] s' g.

(** The AND-separated fragments of the WHERE clause of a query. *)
Definition fragments (query : text) : list text :=
  match re_search where_pattern (strip query) with
  | Some (g, _) => re_split and_pattern (group 1 g)
  | None => []
  end.

Definition count_points (s : text) : nat := length (filter is_point s).

(** [needle in hay] *)
Fixpoint is_infix (needle hay : text) : bool :=
  match strip_prefix needle hay with
  | Some _ => true
  | None =>
      match hay with
      | [] => false
      | _ :: hay' => is_infix needle hay'
      end
  end.

(** [step['operation']] of a plan step. *)
Definition operation_of (st : plan_step) : pyobj :=
  dict_get st (T "operation") (PStr []).

(** The score the optimizer sorts a condition by. *)
Definition score_of (float_str : pyfloat -> text) (c : Condition) : pyfloat :=
  score (score_condition float_str c).

(** Every value a score can take: the product of one base score, one
    column modifier and one value modifier of the three tables or their
    defaults. *)
Definition base_scores : list pyfloat :=
  [tenths 1; tenths 3; tenths 5; tenths 7].
Definition column_scores : list pyfloat :=
  [tenths 1; tenths 2; tenths 3; tenths 4; tenths 6].
Definition value_scores : list pyfloat := [tenths 3; tenths 4; tenths 10].

Definition all_scores : list pyfloat :=
  flat_map (fun b =>
    flat_map (fun m => map (fun v => fmul (fmul b m) v) value_scores)
             column_scores) base_scores.

(** A test on every triple of scores. *)
Definition check3 (P : pyfloat -> pyfloat -> pyfloat -> bool) : bool :=
  forallb (fun x =>
    forallb (fun y => forallb (fun z => P x y z) all_scores) all_scores)
    all_scores.

(** [a <= b] on scores, as a relation on the elements sorted by [key]. *)
Definition key_le (A : Type) (key : A -> pyfloat) (a b : A) : Prop :=
  fle (key a) (key b) = true.

(** The condition [country = 'US'] as the parser builds it. *)
Definition cond_country_US : Condition :=
  {| column := T "country"; operator := T "=";
     value := VStr (T "US"); original_text := T "country = 'US'" |}.

Definition cond_age_25 : Condition :=
  {| column := T "age"; operator := T ">";
     value := VInt 25; original_text := T "age > 25" |}.

(** The two clauses in the words of the specification: the text holds,
    somewhere, the keywords SELECT and FROM (in any case) around a star,
    separated by white space and followed by a table name; the text holds,
    somewhere, the keyword WHERE (in any case), white space and at least one
    character that is not a newline. *)
Definition has_select_clause (s : text) : Prop :=
  exists pre kw1 ws1 ws2 kw2 ws3 tbl rest,
    s = pre ++ kw1 ++ ws1 ++ T "*" ++ ws2 ++ kw2 ++ ws3 ++ tbl ++ rest
    /\ lower kw1 = T "select" /\ lower kw2 = T "from"
    /\ (forallb is_space ws1 = true /\ 1 <= length ws1)
    /\ (forallb is_space ws2 = true /\ 1 <= length ws2)
    /\ (forallb is_space ws3 = true /\ 1 <= length ws3)
    /\ (forallb is_word tbl = true /\ 1 <= length tbl).

Definition has_where_clause (s : text) : Prop :=
  exists pre kw ws c rest,
    s = pre ++ kw ++ ws ++ c :: rest
    /\ lower kw = T "where"
    /\ (forallb is_space ws = true /\ 1 <= length ws)
    /\ is_dot c = true.

(** The text has no white space at its head. *)
Definition no_space_head (s : text) : Prop :=
  match s with
  | [] => True
  | c :: _ => is_space c = false
  end.

(** The text stops the class [p]: it is empty or starts outside [p]. *)
Definition stops (p : ascii -> bool) (s : text) : Prop :=
  match s with
  | [] => True
  | c :: _ => p c = false
  end.

(** [a] has the key of [a0]. *)
Definition same_key (A : Type) (key : A -> pyfloat) (a0 a : A) : bool :=
  feq (key a) (key a0).

(** [step['step']] and [step['condition']] of a plan step. *)
Definition step_of (st : plan_step) : pyobj :=
  dict_get st (T "step") (PStr []).

Definition condition_of (st : plan_step) : pyobj :=
  dict_get st (T "condition") (PStr []).

(** A fragment matches the condition pattern. *)
Definition parses (part : text) : bool :=
  match _parse_single_condition part with
  | Some _ => true
  | None => false
  end.

(** A capital letter A..Z. *)
Definition is_capital (c : ascii) : bool := between 65 90 c.

(** The lower-cased common values of the table [value_modifiers]. *)
Definition common_states : list text :=
  [T "active"; T "enabled"; T "true"; T "1"].
Definition common_ages : list text :=
  [T "18"; T "21"; T "25"; T "30"; T "35"; T "40"; T "50"].

(** The words of [_generate_reasoning] for the operator and the column. *)
Definition operator_words (c : Condition) : text :=
  if member (operator c) [T "="; T "=="] then
    T "equality condition (highly selective)"
  else if member (operator c) [T ">"; T ">="; T "<"; T "<="] then
    T "range condition (moderately selective)"
  else if member (operator c) [T "!="; T "<>"] then
    T "inequality condition (less selective)"
  else T "operator '" ++ operator c ++ T "' (moderate selectivity)".

Definition cardinality_word (column_modifier : pyfloat) : text :=
  if feq column_modifier (tenths 1) then T "high"
  else if feq column_modifier (tenths 2) then T "medium"
  else T "low".

(** A test on every base score, column modifier and value modifier. *)
Definition check_factors (P : pyfloat -> pyfloat -> pyfloat -> bool) : bool :=
  forallb (fun b =>
    forallb (fun m => forallb (fun v => P b m v) value_scores) column_scores)
    base_scores.

(** * Properties *)

(** ** The scorer on [country = 'US'] *)

(** C1: the value modifier of a condition with the string value US.  The
    look-up key is the lower-cased text [us], the table holds the key [US],
    so the look-up falls back to the default 1.0 and the score is
    0.1 * 0.2 * 1.0; the entry 0.3 of the table is not applied. *)
Theorem C1_value_modifier_US :
  forall float_str,
    value_modifier_of float_str cond_country_US = tenths 10
    /\ dict_get value_modifiers (T "US") (tenths 10) = tenths 3
    /\ score (score_condition float_str cond_country_US)
       = fmul (fmul (tenths 1) (tenths 2)) (tenths 10)
    /\ score (score_condition float_str cond_country_US)
       <> fmul (fmul (tenths 1) (tenths 2)) (tenths 3).
Proof.
  intro fs. repeat split; try (vm_compute; reflexivity).
  vm_compute. discriminate.
Qed.

(** ** The scenario of the specification *)

(** C9: parsing and optimizing the example query puts [country = 'US']
    before [age > 25], gives a plan of three steps (FILTER, FILTER, RETURN)
    and a summary saying that 2 conditions were reordered. *)
Theorem C9_scenario :
  forall float_str,
  exists q,
    parse (T "SELECT * FROM users WHERE age > 25 AND country = 'US'") = Ok q
    /\ conditions q = [cond_age_25; cond_country_US]
    /\ optimized_conditions (optimize float_str q)
       = [cond_country_US; cond_age_25]
    /\ length (execution_plan (optimize float_str q)) = 3
    /\ map operation_of (execution_plan (optimize float_str q))
       = [PStr (T "FILTER"); PStr (T "FILTER"); PStr (T "RETURN")]
    /\ is_infix (T "- Reordered 2 conditions for better performance")
                (optimization_summary (optimize float_str q)) = true.
Proof.
  intro fs. eexists. split; [vm_compute; reflexivity|].
  repeat split; vm_compute; reflexivity.
Qed.

(** ** Character classes *)

Ltac ascii_cases c :=
  destruct c as [[|] [|] [|] [|] [|] [|] [|] [|]];
  vm_compute; intuition congruence.

Lemma opchar_not_word c : is_opchar c = true -> is_word c = false.
Proof. ascii_cases c. Qed.

Lemma opchar_not_space c : is_opchar c = true -> is_space c = false.
Proof. ascii_cases c. Qed.

Lemma opchar_not_quote c : is_opchar c = true -> is_quote c = false.
Proof. ascii_cases c. Qed.

Lemma space_not_word c : is_space c = true -> is_word c = false.
Proof. ascii_cases c. Qed.

Lemma space_not_opchar c : is_space c = true -> is_opchar c = false.
Proof. ascii_cases c. Qed.

Lemma quote_not_space c : is_quote c = true -> is_space c = false.
Proof. ascii_cases c. Qed.

Lemma quote_not_opchar c : is_quote c = true -> is_opchar c = false.
Proof. ascii_cases c. Qed.

Lemma quote_not_valchar c : is_quote c = true -> is_valchar c = false.
Proof. ascii_cases c. Qed.

Lemma word_not_space c : is_word c = true -> is_space c = false.
Proof. ascii_cases c. Qed.

Lemma valchar_not_space c : is_valchar c = true -> is_space c = false.
Proof. ascii_cases c. Qed.

Lemma valchar_not_quote c : is_valchar c = true -> is_quote c = false.
Proof. ascii_cases c. Qed.

Lemma ascii_eqb_eq a b : ascii_eqb a b = true <-> a = b.
Proof. unfold ascii_eqb. apply Ascii.eqb_eq. Qed.

Lemma text_eqb_eq a : forall b, text_eqb a b = true <-> a = b.
Proof.
  induction a as [|x a IH]; intros [|y b]; simpl; split; intro H;
    try reflexivity; try discriminate.
  - apply andb_true_iff in H as [H1 H2].
    apply ascii_eqb_eq in H1. apply IH in H2. congruence.
  - injection H as -> ->. apply andb_true_iff. split.
    + now apply ascii_eqb_eq.
    + now apply IH.
Qed.

(** ** [strip] *)

Lemma lstrip_head s : no_space_head (lstrip s).
Proof.
  induction s as [|c s IH]; simpl; [exact I|].
  destruct (is_space c) eqn:E; [exact IH | exact E].
Qed.

Lemma lstrip_fix s : no_space_head s -> lstrip s = s.
Proof. destruct s as [|c s]; simpl; [reflexivity | intros ->; reflexivity]. Qed.

Lemma lstrip_suffix s : exists u, s = u ++ lstrip s.
Proof.
  induction s as [|c s [u IH]]; simpl; [now exists [] |].
  destruct (is_space c); [| now exists []].
  exists (c :: u). simpl. now f_equal.
Qed.

Lemma rev_prefix_head (b u : text) :
  no_space_head (rev b ++ u) -> b <> [] -> no_space_head (rev b).
Proof.
  intros H Hb. destruct (rev b) as [|c r] eqn:E.
  - exfalso. apply Hb. apply (f_equal (@rev ascii)) in E.
    rewrite rev_involutive in E. exact E.
  - exact H.
Qed.

(** What [strip] returns has no white space at either end. *)
Lemma strip_ends s :
  exists b, strip s = rev b /\ no_space_head b /\ no_space_head (rev b).
Proof.
  unfold strip, rstrip. set (a := lstrip s).
  exists (lstrip (rev a)). split; [reflexivity|]. split; [apply lstrip_head|].
  destruct (lstrip_suffix (rev a)) as [u Hu].
  destruct (lstrip (rev a)) as [|c b] eqn:E; [exact I|].
  assert (Ha : a = rev (c :: b) ++ rev u).
  { rewrite <- rev_app_distr, <- Hu. now rewrite rev_involutive. }
  apply rev_prefix_head with (u := rev u); [| discriminate].
  rewrite <- Ha. apply lstrip_head.
Qed.

Lemma strip_fix s :
  no_space_head s -> no_space_head (rev s) -> strip s = s.
Proof.
  intros H1 H2. unfold strip, rstrip.
  rewrite (lstrip_fix _ H1), (lstrip_fix _ H2). apply rev_involutive.
Qed.

Lemma strip_idempotent s : strip (strip s) = strip s.
Proof.
  destruct (strip_ends s) as [b [-> [H1 H2]]].
  apply strip_fix; [exact H2 | now rewrite rev_involutive].
Qed.

(** ** The matcher against the declarative reading *)

Lemma strip_prefix_app t : forall s s',
  strip_prefix t s = Some s' <-> s = t ++ s'.
Proof.
  induction t as [|x t IH]; intros s s'; simpl.
  - split; intro H; [injection H as -> | subst]; reflexivity.
  - destruct s as [|y s]; [split; discriminate|].
    destruct (ascii_eqb x y) eqn:E.
    + apply ascii_eqb_eq in E. subst y. rewrite IH. split; intro H.
      * now subst.
      * now injection H.
    + split; [discriminate|]. intro H. injection H as H _. subst y.
      assert (ascii_eqb x x = true) by now apply ascii_eqb_eq. congruence.
Qed.

Lemma rep_sound (A : Type) p (k : text -> option A) x : forall s hi lo,
  rep p hi lo s k = Some x ->
  exists run s', s = run ++ s' /\ forallb p run = true /\ lo <= length run
    /\ (forall h, hi = Some h -> length run <= h) /\ k s' = Some x.
Proof.
  assert (Hstop : forall s lo hi,
    (if lo =? 0 then k s else None) = Some x ->
    exists run s', s = run ++ s' /\ forallb p run = true /\ lo <= length run
      /\ (forall h, hi = Some h -> length run <= h) /\ k s' = Some x).
  { intros s lo hi H. destruct (Nat.eqb_spec lo 0); [|discriminate].
    exists [], s. simpl. repeat split; auto; intros; lia. }
  induction s as [|c s IH]; intros hi lo H; simpl in H.
  - now apply Hstop.
  - destruct (p c && may_take hi) eqn:E; [| now apply Hstop].
    destruct (rep p (dec_hi hi) (pred lo) s k) eqn:R; [| now apply Hstop].
    injection H as ->. apply andb_true_iff in E as [Ep Et].
    apply IH in R as (run & s' & -> & Hrun & Hlo & Hhi & Hk).
    exists (c :: run), s'. simpl. rewrite Ep, Hrun.
    repeat split; auto; [lia|].
    intros h ->. destruct h as [|h]; [discriminate|].
    specialize (Hhi h eq_refl). lia.
Qed.

Lemma rep_complete (A : Type) p (k : text -> option A) x s' : forall run hi lo,
  forallb p run = true -> lo <= length run ->
  (forall h, hi = Some h -> length run <= h) ->
  k s' = Some x ->
  exists y, rep p hi lo (run ++ s') k = Some y.
Proof.
  induction run as [|c run IH]; intros hi lo Hrun Hlo Hhi Hk.
  - simpl in *. assert (lo = 0) by lia. subst lo.
    destruct s' as [|c s]; simpl; [eauto|].
    destruct (p c && may_take hi); [|eauto].
    destruct (rep p (dec_hi hi) 0 s k); eauto.
  - simpl in Hrun. apply andb_true_iff in Hrun as [Hc Hrun].
    simpl. rewrite Hc. simpl.
    assert (Ht : may_take hi = true).
    { destruct hi as [[|h]|]; auto. specialize (Hhi 0 eq_refl). simpl in Hhi. lia. }
    rewrite Ht.
    destruct (IH (dec_hi hi) (pred lo) Hrun) as [y Hy]; auto.
    + simpl in Hlo. lia.
    + intros h Hh. destruct hi as [h0|]; [|discriminate].
      injection Hh as <-. specialize (Hhi h0 eq_refl). simpl in Hhi. lia.
    + rewrite Hy. eauto.
Qed.

Lemma rmatch_sound r : forall (A : Type) s g (k : text -> groups -> option A) x,
  rmatch r s g k = Some x ->
  exists s' g', matches r s g s' g' /\ k s' g' = Some x.
Proof.
  induction r as [|p|p lo hi|a IHa b IHb|n a IHa|n]; intros A s g k x H;
    simpl in H.
  - exists s, g. split; [constructor | exact H].
  - destruct s as [|c s]; [discriminate|].
    destruct (p c) eqn:E; [|discriminate].
    exists s, g. split; [now constructor | exact H].
  - apply rep_sound in H as (run & s' & -> & Hrun & Hlo & Hhi & Hk).
    exists s', g. split; [now constructor | exact Hk].
  - apply IHa in H as (s1 & g1 & Ha & H).
    apply IHb in H as (s2 & g2 & Hb & H).
    exists s2, g2. split; [econstructor; eauto | exact H].
  - apply IHa in H as (s1 & g1 & Ha & H).
    eexists _, _. split; [constructor; exact Ha | exact H].
  - destruct (get_group n g) as [t|] eqn:G; [|discriminate].
    destruct (strip_prefix t s) as [s'|] eqn:P; [|discriminate].
    apply strip_prefix_app in P. subst s.
    exists s', g. split; [now constructor | exact H].
Qed.

Lemma rmatch_complete r s g s' g' :
  matches r s g s' g' ->
  forall (A : Type) (k : text -> groups -> option A) x,
    k s' g' = Some x -> exists y, rmatch r s g k = Some y.
Proof.
  induction 1 as [s g|p c s g Hc|p lo hi run s g Hrun Hlo Hhi
                 |a b s g s1 g1 s2 g2 Ha IHa Hb IHb|n a s g s' g' Ha IHa
                 |n t s g Hg]; intros A k x Hk; simpl.
  - eauto.
  - rewrite Hc. eauto.
  - eapply rep_complete; eauto.
  - destruct (IHb A k x Hk) as [y Hy].
    apply (IHa A (fun s' g' => rmatch b s' g' k) y Hy).
  - apply (IHa A _ x Hk).
  - rewrite Hg.
    assert (P : strip_prefix t (t ++ s) = Some s) by now apply strip_prefix_app.
    rewrite P. eauto.
Qed.

Lemma re_match_sound r s g s' :
  re_match r s = Some (g, s') -> matches r s [] s' g.
Proof.
  unfold re_match. intro H. apply rmatch_sound in H as (s1 & g1 & Hm & E).
  now injection E as <- <-.
Qed.

Lemma re_match_complete r s g s' :
  matches r s [] s' g -> exists y, re_match r s = Some y.
Proof.
  intro H. unfold re_match.
  eapply rmatch_complete with (x := (g, s')); eauto.
Qed.

Lemma re_search_occurs r s : re_search r s <> None <-> occurs r s.
Proof.
  induction s as [|c s IH]; simpl.
  - destruct (re_match r []) as [[g s']|] eqn:E.
    + split; [|discriminate]. intros _. exists [], [], s', g.
      split; [reflexivity | now apply re_match_sound].
    + split; [congruence|]. intros (pre & rest & s' & g & Hs & Hm).
      destruct pre; [|discriminate]. simpl in Hs. subst rest.
      apply re_match_complete in Hm as [y Hy]. congruence.
  - destruct (re_match r (c :: s)) as [[g s']|] eqn:E.
    + split; [|discriminate]. intros _. exists [], (c :: s), s', g.
      split; [reflexivity | now apply re_match_sound].
    + rewrite IH. split.
      * intros (pre & rest & s' & g & Hs & Hm).
        exists (c :: pre), rest, s', g. split; [simpl; now f_equal | exact Hm].
      * intros (pre & rest & s' & g & Hs & Hm).
        destruct pre as [|c' pre].
        -- simpl in Hs. subst rest.
           apply re_match_complete in Hm as [y Hy]. congruence.
        -- injection Hs as _ Hs. exists pre, rest, s', g. now split.
Qed.

(** ** The shape of a match of the condition pattern *)

Lemma firstn_run (run s : text) :
  firstn (length (run ++ s) - length s) (run ++ s) = run.
Proof.
  rewrite length_app, Nat.add_sub.
  rewrite firstn_app, Nat.sub_diag, firstn_all. simpl. apply app_nil_r.
Qed.

Ltac inv H := inversion H; subst; clear H.

Lemma group_plus_inv n p s g s' g' :
  matches (RGroup n (RRep p 1 None)) s g s' g' ->
  exists run, s = run ++ s' /\ g' = (n, run) :: g
    /\ forallb p run = true /\ 1 <= length run.
Proof.
  intro H. inv H.
  match goal with H : matches (RRep _ _ _) _ _ _ _ |- _ => inv H end.
  exists run. rewrite firstn_run. unfold set_group. auto.
Qed.

Lemma star_inv p s g s' g' :
  matches (RRep p 0 None) s g s' g' ->
  exists run, s = run ++ s' /\ g' = g /\ forallb p run = true.
Proof. intro H. inv H. exists run. auto. Qed.

Lemma group_opt_inv n p s g s' g' :
  matches (RGroup n (RRep p 0 (Some 1))) s g s' g' ->
  exists run, s = run ++ s' /\ g' = (n, run) :: g
    /\ forallb p run = true /\ length run <= 1.
Proof.
  intro H. inv H.
  match goal with H : matches (RRep _ _ _) _ _ _ _ |- _ => inv H end.
  exists run. rewrite firstn_run. unfold set_group. auto.
Qed.

Lemma seq_inv a b s g s2 g2 :
  matches (RSeq a b) s g s2 g2 ->
  exists s1 g1, matches a s g s1 g1 /\ matches b s1 g1 s2 g2.
Proof. intro H. inv H. eauto. Qed.

Lemma eps_inv s g s' g' : matches REps s g s' g' -> s' = s /\ g' = g.
Proof. intro H. inv H. auto. Qed.

Lemma backref_inv n s g s' g' :
  matches (RBackref n) s g s' g' ->
  exists t, get_group n g = Some t /\ s = t ++ s' /\ g' = g.
Proof. intro H. inv H. eauto. Qed.

Lemma condition_match_shape s g rest :
  re_match condition_pattern s = Some (g, rest) ->
  exists col ws1 op ws2 q tok,
    s = col ++ ws1 ++ op ++ ws2 ++ q ++ tok ++ q ++ rest
    /\ g = [(4, tok); (3, q); (2, op); (1, col)]
    /\ (forallb is_word col = true /\ 1 <= length col)
    /\ forallb is_space ws1 = true
    /\ (forallb is_opchar op = true /\ 1 <= length op)
    /\ forallb is_space ws2 = true
    /\ (forallb is_quote q = true /\ length q <= 1)
    /\ (forallb is_valchar tok = true /\ 1 <= length tok).
Proof.
  intro H. apply re_match_sound in H.
  unfold condition_pattern, seq, plus, star, opt in H.
  apply seq_inv in H as (s1 & g1 & H1 & H).
  apply seq_inv in H as (s2 & g2 & H2 & H).
  apply seq_inv in H as (s3 & g3 & H3 & H).
  apply seq_inv in H as (s4 & g4 & H4 & H).
  apply seq_inv in H as (s5 & g5 & H5 & H).
  apply seq_inv in H as (s6 & g6 & H6 & H).
  apply seq_inv in H as (s7 & g7 & H7 & H).
  apply eps_inv in H as [-> ->].
  apply group_plus_inv in H1 as (col & -> & -> & Hcol).
  apply star_inv in H2 as (ws1 & -> & -> & Hws1).
  apply group_plus_inv in H3 as (op & -> & -> & Hop).
  apply star_inv in H4 as (ws2 & -> & -> & Hws2).
  apply group_opt_inv in H5 as (q & -> & -> & Hq).
  apply group_plus_inv in H6 as (tok & -> & -> & Htok).
  apply backref_inv in H7 as (t & Ht & -> & ->).
  simpl in Ht. injection Ht as <-.
  exists col, ws1, op, ws2, q, tok. repeat split; tauto.
Qed.

(** ** From the parser to the matches *)

Lemma parse_single_shape p c :
  _parse_single_condition p = Some c ->
  exists col ws1 op ws2 q tok rest,
    strip p = col ++ ws1 ++ op ++ ws2 ++ q ++ tok ++ q ++ rest
    /\ re_match condition_pattern (strip p)
       = Some ([(4, tok); (3, q); (2, op); (1, col)], rest)
    /\ c = {| column := col; operator := op;
              value := convert_value q tok; original_text := strip p |}
    /\ (forallb is_word col = true /\ 1 <= length col)
    /\ (forallb is_opchar op = true /\ 1 <= length op)
    /\ (forallb is_quote q = true /\ length q <= 1)
    /\ (forallb is_valchar tok = true /\ 1 <= length tok).
Proof.
  unfold _parse_single_condition. intro H.
  destruct (re_match condition_pattern (strip p)) as [[g rest]|] eqn:E;
    [|discriminate].
  destruct (condition_match_shape _ E)
    as (col & ws1 & op & ws2 & q & tok & Hs & -> & Hcol & _ & Hop & _ & Hq & Htok).
  injection H as <-.
  exists col, ws1, op, ws2, q, tok, rest. repeat split; tauto.
Qed.

Lemma parse_single_strip p :
  _parse_single_condition (strip p) = _parse_single_condition p.
Proof. unfold _parse_single_condition. now rewrite strip_idempotent. Qed.

Lemma parse_single_empty p : strip p = [] -> _parse_single_condition p = None.
Proof. unfold _parse_single_condition. intros ->. reflexivity. Qed.

Lemma parse_parts_cons part rest :
  parse_parts (part :: rest)
  = match _parse_single_condition part with
    | Some c => c :: parse_parts rest
    | None => parse_parts rest
    end.
Proof.
  simpl. destruct (strip part) as [|x t] eqn:E.
  - now rewrite (parse_single_empty _ E).
  - rewrite <- E. now rewrite parse_single_strip.
Qed.

Lemma parse_parts_in c parts :
  In c (parse_parts parts) <->
  exists part, In part parts /\ _parse_single_condition part = Some c.
Proof.
  induction parts as [|part parts IH].
  - simpl. split; [tauto | intros (? & [] & _)].
  - rewrite parse_parts_cons.
    destruct (_parse_single_condition part) as [c0|] eqn:E; simpl; rewrite IH.
    + split.
      * intros [->|(p & Hp & Hc)]; [exists part; auto | exists p; auto].
      * intros (p & [<-|Hp] & Hc); [left; congruence | right; eauto].
    + split.
      * intros (p & Hp & Hc). exists p; auto.
      * intros (p & [<-|Hp] & Hc); [congruence | eauto].
Qed.

Lemma parse_ok_conditions q pq :
  parse q = Ok pq -> conditions pq = parse_parts (fragments q).
Proof.
  unfold parse, fragments, _parse_conditions.
  destruct (re_search select_pattern (strip q)) as [[tg tr]|]; [|discriminate].
  destruct (re_search where_pattern (strip q)) as [[wg wr]|]; [|discriminate].
  intro H. injection H as <-. reflexivity.
Qed.

Lemma length_pos_nonempty (A : Type) (l : list A) : 1 <= length l -> l <> [].
Proof. destruct l; simpl; [lia | discriminate]. Qed.

(** ** Operators of parsed conditions *)

Opaque tenths.

Lemma opchars_base_score op :
  forallb is_opchar op = true ->
  In (dict_get selectivity_rules op (tenths 5)) [tenths 1; tenths 3; tenths 5].
Proof.
  intro Hop. unfold selectivity_rules. cbn [dict_get In].
  repeat match goal with
         | |- context [text_eqb ?k op] =>
             let E := fresh "E" in
             destruct (text_eqb k op) eqn:E;
             [apply text_eqb_eq in E; auto;
              try (subst op; vm_compute in Hop; discriminate Hop)|]
         end.
  auto.
Qed.

(** C10: the operator of every condition the parser builds is a non-empty
    run of the characters [=], [<], [>] and [!]; it is never LIKE or ILIKE,
    and its base score is 0.1, 0.3 or 0.5, never the 0.7 of those entries. *)
Theorem C10_parsed_operator :
  forall q pq c,
    parse q = Ok pq -> In c (conditions pq) ->
    operator c <> []
    /\ forallb is_opchar (operator c) = true
    /\ operator c <> T "LIKE" /\ operator c <> T "ILIKE"
    /\ In (base_score_of c) [tenths 1; tenths 3; tenths 5]
    /\ base_score_of c <> tenths 7.
Proof.
  intros q pq c Hp Hin.
  rewrite (parse_ok_conditions _ Hp) in Hin.
  apply parse_parts_in in Hin as (part & _ & Hc).
  apply parse_single_shape in Hc
    as (col & ws1 & op & ws2 & qt & tok & rest & _ & _ & -> & _ & [Hop Hlen] & _).
  unfold base_score_of. cbn [operator].
  assert (Hb := opchars_base_score _ Hop).
  repeat split.
  - now apply length_pos_nonempty.
  - exact Hop.
  - intros ->. discriminate Hop.
  - intros ->. discriminate Hop.
  - exact Hb.
  - intro E. rewrite E in Hb.
    cbn [In] in Hb. destruct Hb as [Hb|[Hb|[Hb|[]]]];
      vm_compute in Hb; discriminate Hb.
Qed.

Lemma C10_parsed_operator_witness :
  operator cond_age_25 <> []
  /\ forallb is_opchar (operator cond_age_25) = true
  /\ operator cond_age_25 <> T "LIKE" /\ operator cond_age_25 <> T "ILIKE"
  /\ In (base_score_of cond_age_25) [tenths 1; tenths 3; tenths 5]
  /\ base_score_of cond_age_25 <> tenths 7.
Proof.
  apply (@C10_parsed_operator (T "SELECT * FROM users WHERE age > 25")
           {| table_name := T "users"; conditions := [cond_age_25];
              original_query := T "SELECT * FROM users WHERE age > 25" |}
           cond_age_25).
  - vm_compute. reflexivity.
  - simpl. left. reflexivity.
Defined.

(** ** Re-parsing the original text *)

(** C6: re-parsing the [original_text] of a condition built by [parse]
    succeeds and gives the same condition: same column, operator and
    value. *)
Theorem C6_original_text_roundtrip :
  forall q pq c,
    parse q = Ok pq -> In c (conditions pq) ->
    exists c',
      _parse_single_condition (original_text c) = Some c'
      /\ column c' = column c /\ operator c' = operator c
      /\ value c' = value c.
Proof.
  intros q pq c Hp Hin.
  rewrite (parse_ok_conditions _ Hp) in Hin.
  apply parse_parts_in in Hin as (part & _ & Hc).
  exists c. split; [|auto].
  assert (Ht : original_text c = strip part).
  { unfold _parse_single_condition in Hc.
    destruct (re_match condition_pattern (strip part)) as [[g r]|];
      [|discriminate].
    injection Hc as <-. reflexivity. }
  rewrite Ht, parse_single_strip. exact Hc.
Qed.

Lemma C6_original_text_roundtrip_witness :
  exists c',
    _parse_single_condition (original_text cond_country_US) = Some c'
    /\ column c' = column cond_country_US
    /\ operator c' = operator cond_country_US
    /\ value c' = value cond_country_US.
Proof.
  apply (@C6_original_text_roundtrip
           (T "SELECT * FROM users WHERE age > 25 AND country = 'US'")
           {| table_name := T "users";
              conditions := [cond_age_25; cond_country_US];
              original_query :=
                T "SELECT * FROM users WHERE age > 25 AND country = 'US'" |}
           cond_country_US).
  - vm_compute. reflexivity.
  - simpl. right. left. reflexivity.
Defined.

(** ** Queries whose fragments do not match *)

Lemma parse_parts_nonempty parts :
  parse_parts parts <> [] <->
  exists part, In part parts /\ _parse_single_condition part <> None.
Proof.
  split.
  - intro H. destruct (parse_parts parts) as [|c l] eqn:E; [congruence|].
    assert (Hin : In c (parse_parts parts)) by (rewrite E; now left).
    apply parse_parts_in in Hin as (part & Hp & Hc).
    exists part. split; [exact Hp | congruence].
  - intros (part & Hp & Hc) E.
    destruct (_parse_single_condition part) as [c|] eqn:Ec; [|congruence].
    assert (Hin : In c (parse_parts parts))
      by (apply parse_parts_in; eauto).
    rewrite E in Hin. destruct Hin.
Qed.

(** C3 (as amended): after a successful parse the list of conditions is
    non-empty exactly when at least one AND-separated fragment of the WHERE
    clause matches the condition pattern; fragments that do not match are
    dropped, so the list can be empty. *)
Theorem C3_conditions_nonempty_iff :
  forall q pq,
    parse q = Ok pq ->
    (conditions pq <> [] <->
     exists part, In part (fragments q)
                  /\ _parse_single_condition part <> None).
Proof.
  intros q pq Hp. rewrite (parse_ok_conditions _ Hp).
  apply parse_parts_nonempty.
Qed.

Lemma C3_conditions_nonempty_iff_witness :
  conditions {| table_name := T "users"; conditions := [cond_age_25];
                original_query := T "SELECT * FROM users WHERE age > 25" |}
    <> [] <->
  exists part,
    In part (fragments (T "SELECT * FROM users WHERE age > 25"))
    /\ _parse_single_condition part <> None.
Proof.
  apply (@C3_conditions_nonempty_iff
           (T "SELECT * FROM users WHERE age > 25")).
  vm_compute. reflexivity.
Defined.

(** C3 fails as stated: the query below parses, its only fragment [foo]
    does not match the condition pattern and is dropped, and the list of
    conditions is empty. *)
Lemma C3_counterexample :
  parse (T "SELECT * FROM users WHERE foo")
  = Ok {| table_name := T "users"; conditions := [];
          original_query := T "SELECT * FROM users WHERE foo" |}
  /\ ~ (forall q pq, parse q = Ok pq -> conditions pq <> []).
Proof.
  assert (E : parse (T "SELECT * FROM users WHERE foo")
              = Ok {| table_name := T "users"; conditions := [];
                      original_query := T "SELECT * FROM users WHERE foo" |})
    by (vm_compute; reflexivity).
  split; [exact E|]. intro H. exact (H _ _ E eq_refl).
Qed.

(** ** Quoted values *)

Lemma stops_app (p q : ascii -> bool) (l s : text) :
  (forall c, q c = true -> p c = false) ->
  forallb q l = true -> stops p s -> stops p (l ++ s).
Proof.
  intros Hpq Hl Hs. destruct l as [|c l]; [exact Hs|].
  simpl in *. apply andb_true_iff in Hl as [Hc _]. now apply Hpq.
Qed.

Lemma stops_cons (p : ascii -> bool) c s : p c = false -> stops p (c :: s).
Proof. intro H. exact H. Qed.

Lemma stops_app_nonempty (p q : ascii -> bool) (l s : text) :
  (forall c, q c = true -> p c = false) ->
  forallb q l = true -> 1 <= length l -> stops p (l ++ s).
Proof.
  intros Hpq Hl Hn. destruct l as [|c l]; [simpl in Hn; lia|].
  simpl in *. apply andb_true_iff in Hl as [Hc _]. now apply Hpq.
Qed.

(** A greedy unbounded repetition takes the whole run when what follows
    stops the class and the rest of the pattern accepts it. *)
Lemma rep_greedy (A : Type) p (k : text -> option A) x s' : forall run lo,
  forallb p run = true -> lo <= length run -> stops p s' ->
  k s' = Some x ->
  rep p None lo (run ++ s') k = Some x.
Proof.
  induction run as [|c run IH]; intros lo Hrun Hlo Hstop Hk.
  - simpl in Hlo. assert (lo = 0) by lia. subst lo. simpl.
    destruct s' as [|c s]; simpl; [exact Hk|].
    simpl in Hstop. rewrite Hstop. exact Hk.
  - simpl in Hrun. apply andb_true_iff in Hrun as [Hc Hrun].
    simpl. rewrite Hc. simpl.
    rewrite (IH (pred lo) Hrun); auto. simpl in Hlo. lia.
Qed.

Lemma rep_none_left (A : Type) p (k : text -> option A) s :
  rep p (Some 0) 0 s k = k s.
Proof. destruct s as [|c s]; simpl; [reflexivity|]. now rewrite andb_false_r. Qed.

Lemma condition_match_quoted col ws1 op ws2 q txt rest :
  forallb is_word col = true -> 1 <= length col ->
  forallb is_space ws1 = true ->
  forallb is_opchar op = true -> 1 <= length op ->
  forallb is_space ws2 = true ->
  is_quote q = true ->
  forallb is_valchar txt = true -> 1 <= length txt ->
  re_match condition_pattern
    (col ++ ws1 ++ op ++ ws2 ++ q :: txt ++ q :: rest)
  = Some ([(4, txt); (3, [q]); (2, op); (1, col)], rest).
Proof.
  intros Hcol Ncol Hws1 Hop Nop Hws2 Hq Htxt Ntxt.
  unfold re_match, condition_pattern, seq, plus, star, opt.
  cbn [rmatch].
  apply rep_greedy; [exact Hcol | exact Ncol | |].
  { apply stops_app with (q := is_space); auto using space_not_word.
    apply stops_app_nonempty with (q := is_opchar);
      auto using opchar_not_word. }
  rewrite firstn_run.
  apply rep_greedy; [exact Hws1 | lia | |].
  { apply stops_app_nonempty with (q := is_opchar);
      auto using opchar_not_space. }
  apply rep_greedy; [exact Hop | exact Nop | |].
  { apply stops_app with (q := is_space); auto using space_not_opchar.
    apply stops_cons. now apply quote_not_opchar. }
  rewrite firstn_run.
  apply rep_greedy; [exact Hws2 | lia | |].
  { apply stops_cons. now apply quote_not_space. }
  cbn [rep]. rewrite Hq. cbn [may_take andb dec_hi pred].
  rewrite rep_none_left.
  assert (Hfirst : firstn (length (q :: txt ++ q :: rest)
                           - length (txt ++ q :: rest))
                          (q :: txt ++ q :: rest) = [q]).
  { change (q :: txt ++ q :: rest) with ([q] ++ txt ++ q :: rest).
    apply firstn_run. }
  rewrite Hfirst.
  rewrite rep_greedy with (x := ([(4, txt); (3, [q]); (2, op); (1, col)], rest));
    [reflexivity | exact Htxt | exact Ntxt | |].
  { apply stops_cons. now apply quote_not_valchar. }
  rewrite firstn_run. unfold set_group. cbn [get_group Nat.eqb].
  cbn [strip_prefix].
  assert (Eq : ascii_eqb q q = true) by now apply ascii_eqb_eq.
  rewrite Eq. reflexivity.
Qed.

Lemma forallb_head_false (p : ascii -> bool) (l s : text) :
  forallb p l = true -> 1 <= length l ->
  (forall c, p c = true -> is_space c = false) -> no_space_head (l ++ s).
Proof.
  intros Hl Hn Hp. destruct l as [|c l]; [simpl in Hn; lia|].
  simpl in *. apply andb_true_iff in Hl as [Hc _]. now apply Hp.
Qed.

(** C2 (as amended): a fragment [<identifier> <operator> <quote><text><quote>]
    whose text is a non-empty run of characters with no white space and no
    quote parses into a condition with that column, that operator and the
    text as a string value. *)
Theorem C2_quoted_value :
  forall col ws1 op ws2 q txt,
    forallb is_word col = true -> 1 <= length col ->
    forallb is_space ws1 = true ->
    forallb is_opchar op = true -> 1 <= length op ->
    forallb is_space ws2 = true ->
    is_quote q = true ->
    forallb is_valchar txt = true -> 1 <= length txt ->
    _parse_single_condition (col ++ ws1 ++ op ++ ws2 ++ q :: txt ++ [q])
    = Some {| column := col; operator := op; value := VStr txt;
              original_text := col ++ ws1 ++ op ++ ws2 ++ q :: txt ++ [q] |}.
Proof.
  intros col ws1 op ws2 q txt Hcol Ncol Hws1 Hop Nop Hws2 Hq Htxt Ntxt.
  unfold _parse_single_condition.
  assert (Hs : strip (col ++ ws1 ++ op ++ ws2 ++ q :: txt ++ [q])
               = col ++ ws1 ++ op ++ ws2 ++ q :: txt ++ [q]).
  { apply strip_fix.
    - apply forallb_head_false with (p := is_word);
        auto using word_not_space.
    - replace (col ++ ws1 ++ op ++ ws2 ++ q :: txt ++ [q])
        with ((col ++ ws1 ++ op ++ ws2 ++ q :: txt) ++ [q]).
      + rewrite rev_app_distr. simpl. now apply quote_not_space.
      + repeat rewrite <- app_assoc. reflexivity. }
  rewrite Hs.
  rewrite (@condition_match_quoted col ws1 op ws2 q txt []);
    [| assumption ..].
  unfold group. cbn [get_group Nat.eqb convert_value]. reflexivity.
Qed.

Lemma C2_quoted_value_witness :
  _parse_single_condition (T "country = 'US'") = Some cond_country_US.
Proof.
  apply (@C2_quoted_value (T "country") (T " ") (T "=") (T " ")
           "'"%char (T "US"));
    solve [vm_compute; reflexivity | simpl; lia].
Defined.

(** C2 fails as stated: the quoted text [John Smith] holds a space, the
    value class of the pattern excludes white space, and the fragment does
    not parse. *)
Lemma C2_counterexample :
  _parse_single_condition (T "name = 'John Smith'") = None.
Proof. vm_compute. reflexivity. Qed.

(** ** Typing of the value token *)

Lemma digit_not_point c : is_digit c = true -> is_point c = false.
Proof. ascii_cases c. Qed.

Lemma underscore_not_point c : (code c =? 95) = true -> is_point c = false.
Proof. ascii_cases c. Qed.

Lemma minus_not_point c : (code c =? 45) = true -> is_point c = false.
Proof. ascii_cases c. Qed.

Lemma plus_not_point c : (code c =? 43) = true -> is_point c = false.
Proof. ascii_cases c. Qed.

Lemma exp_not_point c : is_exp c = true -> is_point c = false.
Proof. ascii_cases c. Qed.

Lemma lower_char_point c : is_point (lower_char c) = is_point c.
Proof. destruct c as [[|] [|] [|] [|] [|] [|] [|] [|]]; vm_compute; reflexivity. Qed.

Lemma count_points_cons c s :
  count_points (c :: s)
  = (if is_point c then 1 else 0) + count_points s.
Proof. unfold count_points. simpl. now destruct (is_point c). Qed.

Lemma count_points_app a b :
  count_points (a ++ b) = count_points a + count_points b.
Proof. unfold count_points. now rewrite filter_app, length_app. Qed.

Lemma count_points_lower s : count_points (lower s) = count_points s.
Proof.
  induction s as [|c s IH]; [reflexivity|].
  unfold lower in *. simpl map. rewrite !count_points_cons, IH.
  now rewrite lower_char_point.
Qed.

Lemma contains_point_count s :
  contains_point s = negb (count_points s =? 0).
Proof.
  induction s as [|c s IH]; [reflexivity|].
  unfold contains_point in *. simpl existsb. rewrite count_points_cons, IH.
  destruct (is_point c); simpl; [reflexivity|].
  reflexivity.
Qed.

Lemma digitpart_no_point s : forall acc n after r,
  digitpart s acc n after = Some r -> count_points s = 0.
Proof.
  induction s as [|c s IH]; intros acc n after r H; [reflexivity|].
  simpl in H. rewrite count_points_cons.
  destruct (is_digit c) eqn:D.
  - rewrite (digit_not_point _ D). simpl. eapply IH; eauto.
  - destruct (code c =? 95) eqn:U; simpl in H; [|discriminate].
    destruct after; simpl in H; [|discriminate].
    rewrite (underscore_not_point _ U). simpl. eapply IH; eauto.
Qed.

Lemma read_sign_points s neg body :
  read_sign s = (neg, body) -> count_points body = count_points s.
Proof.
  destruct s as [|c s]; simpl.
  - intro H. now injection H as _ <-.
  - destruct (code c =? 45) eqn:M.
    + intro H. injection H as _ <-. rewrite count_points_cons.
      now rewrite (minus_not_point _ M).
    + destruct (code c =? 43) eqn:P; intro H; injection H as _ <-;
        [|reflexivity].
      rewrite count_points_cons. now rewrite (plus_not_point _ P).
Qed.

Lemma py_int_no_point s n : py_int s = Some n -> count_points s = 0.
Proof.
  unfold py_int. destruct (read_sign s) as [neg body] eqn:S.
  destruct (digitpart body 0%N 0 false) as [[v k]|] eqn:D; [|discriminate].
  intros _. rewrite <- (read_sign_points _ S). eapply digitpart_no_point; eauto.
Qed.

Lemma split_at_spec p s : forall a b,
  split_at p s = (a, b) ->
  forallb (fun c => negb (p c)) a = true
  /\ match b with
     | None => s = a
     | Some b' => exists c, p c = true /\ s = a ++ c :: b'
     end.
Proof.
  induction s as [|c s IH]; intros a b H; simpl in H.
  - injection H as <- <-. auto.
  - destruct (p c) eqn:E.
    + injection H as <- <-. split; [reflexivity|]. exists c. auto.
    + destruct (split_at p s) as [a' b'] eqn:S. injection H as <- <-.
      destruct (IH a' b' eq_refl) as [Ha Hb]. split.
      * simpl. now rewrite E, Ha.
      * destruct b' as [b'|]; [|now subst].
        destruct Hb as (c' & Hc & ->). exists c'. auto.
Qed.

Lemma no_point_prefix a :
  forallb (fun c => negb (is_point c)) a = true -> count_points a = 0.
Proof.
  induction a as [|c a IH]; [reflexivity|]. simpl. intro H.
  apply andb_true_iff in H as [Hc Ha]. rewrite count_points_cons, (IH Ha).
  now destruct (is_point c).
Qed.

Lemma read_number_points s r : read_number s = Some r -> count_points s <= 1.
Proof.
  unfold read_number. destruct (split_at is_point s) as [ip fp] eqn:S.
  destruct (split_at_spec _ _ S) as [Hip Hs].
  apply no_point_prefix in Hip.
  destruct fp as [fp|].
  - destruct Hs as (c & Hc & ->).
    rewrite count_points_app, count_points_cons, Hip, Hc. simpl.
    intro H. assert (Hfp : count_points fp = 0).
    { destruct fp as [|x fp]; [reflexivity|].
      destruct ip as [|y ip].
      - eapply digitpart_no_point; eauto.
      - destruct (digitpart (y :: ip) 0%N 0 false) as [[v k]|];
          [|discriminate].
        eapply digitpart_no_point; eauto. }
    rewrite Hfp. lia.
  - subst s. intros _. lia.
Qed.

(** A text that [float] accepts holds at most one point. *)
Lemma py_float_points s f : py_float s = Some f -> count_points s <= 1.
Proof.
  unfold py_float. destruct (read_sign s) as [neg body] eqn:S.
  rewrite <- (read_sign_points _ S).
  destruct (text_eqb (lower body) (T "inf") || text_eqb (lower body) (T "infinity"))
    eqn:I.
  - intros _. rewrite <- count_points_lower.
    apply orb_true_iff in I as [I|I]; apply text_eqb_eq in I; rewrite I;
      vm_compute; lia.
  - destruct (text_eqb (lower body) (T "nan")) eqn:N.
    + intros _. rewrite <- count_points_lower.
      apply text_eqb_eq in N. rewrite N. vm_compute. lia.
    + destruct (split_at is_exp body) as [num ex] eqn:E.
      destruct (split_at_spec _ _ E) as [_ Hb].
      destruct (read_number num) as [[m nfrac]|] eqn:R; [|discriminate].
      apply read_number_points in R.
      destruct ex as [ex|].
      * destruct Hb as (c & Hc & ->). simpl.
        destruct (py_int ex) as [e|] eqn:P; [|discriminate].
        apply py_int_no_point in P. intros _.
        rewrite count_points_app, count_points_cons, P.
        rewrite (exp_not_point _ Hc). lia.
      * subst body. intros _. exact R.
Qed.

Lemma convert_value_cases quote tok :
  (quote <> [] -> convert_value quote tok = VStr tok)
  /\ (quote = [] -> count_points tok = 0 ->
      convert_value quote tok
      = match py_int tok with Some n => VInt n | None => VStr tok end)
  /\ (quote = [] -> count_points tok = 1 ->
      convert_value quote tok
      = match py_float tok with Some f => VFloat f | None => VStr tok end)
  /\ (quote = [] -> 2 <= count_points tok ->
      py_float tok = None /\ convert_value quote tok = VStr tok).
Proof.
  unfold convert_value. rewrite contains_point_count.
  repeat split.
  - destruct quote; [congruence | reflexivity].
  - intros -> ->. reflexivity.
  - intros -> ->. reflexivity.
  - destruct (py_float tok) as [f|] eqn:F; [|reflexivity].
    apply py_float_points in F. lia.
  - subst quote. destruct (Nat.eqb_spec (count_points tok) 0) as [E|E];
      [lia|]. simpl.
    destruct (py_float tok) as [f|] eqn:F; [|reflexivity].
    apply py_float_points in F. lia.
Qed.

(** C7 (as amended): in a parsed condition, with [quote] and [tok] the
    groups 3 and 4 of the match, a quoted token gives a string; an unquoted
    token with no point gives the integer [int] reads from it, and a string
    when [int] rejects it; an unquoted token with exactly one point gives
    the float [float] reads from it, and a string when [float] rejects it;
    with two points or more [float] rejects it and the value is a string. *)
Theorem C7_value_typing :
  forall p c,
    _parse_single_condition p = Some c ->
    exists quote tok rest,
      re_match condition_pattern (strip p)
      = Some ([(4, tok); (3, quote); (2, operator c); (1, column c)], rest)
      /\ (quote <> [] -> value c = VStr tok)
      /\ (quote = [] -> count_points tok = 0 ->
          value c
          = match py_int tok with Some n => VInt n | None => VStr tok end)
      /\ (quote = [] -> count_points tok = 1 ->
          value c
          = match py_float tok with Some f => VFloat f | None => VStr tok end)
      /\ (quote = [] -> 2 <= count_points tok ->
          py_float tok = None /\ value c = VStr tok).
Proof.
  intros p c H.
  apply parse_single_shape in H
    as (col & ws1 & op & ws2 & q & tok & rest & _ & Hm & -> & _).
  exists q, tok, rest. cbn [value operator column].
  split; [exact Hm | apply convert_value_cases].
Qed.

Lemma C7_value_typing_witness :
  exists quote tok rest,
    re_match condition_pattern (strip (T "price >= 1.5"))
    = Some ([(4, tok); (3, quote); (2, T ">="); (1, T "price")], rest)
    /\ (quote <> [] -> VFloat (float_of_decimal false 15 (-1)) = VStr tok)
    /\ (quote = [] -> count_points tok = 0 ->
        VFloat (float_of_decimal false 15 (-1))
        = match py_int tok with Some n => VInt n | None => VStr tok end)
    /\ (quote = [] -> count_points tok = 1 ->
        VFloat (float_of_decimal false 15 (-1))
        = match py_float tok with Some f => VFloat f | None => VStr tok end)
    /\ (quote = [] -> 2 <= count_points tok ->
        py_float tok = None /\ VFloat (float_of_decimal false 15 (-1)) = VStr tok).
Proof.
  apply (@C7_value_typing (T "price >= 1.5")
           {| column := T "price"; operator := T ">=";
              value := VFloat (float_of_decimal false 15 (-1));
              original_text := T "price >= 1.5" |}).
  vm_compute. reflexivity.
Defined.

(** C7 fails as stated: the unquoted token [John] holds no point and is not
    an integer; [int] rejects it and the value is the string [John]. *)
Lemma C7_counterexample :
  _parse_single_condition (T "name = John")
  = Some {| column := T "name"; operator := T "=";
            value := VStr (T "John"); original_text := T "name = John" |}
  /\ count_points (T "John") = 0
  /\ py_int (T "John") = None.
Proof. repeat split; vm_compute; reflexivity. Qed.

(** ** The two clauses of a query *)

Lemma keyword_inv w : forall s g s' g',
  matches (keyword w) s g s' g' ->
  exists kw, s = kw ++ s' /\ g' = g /\ lower kw = lower w.
Proof.
  induction w as [|c w IH]; intros s g s' g' H; simpl in H.
  - apply eps_inv in H as [-> ->]. now exists [].
  - apply seq_inv in H as (s1 & g1 & H1 & H2).
    apply IH in H2 as (kw & -> & -> & Hkw).
    unfold ci in H1. inv H1.
    exists (c0 :: kw). simpl. repeat split; auto.
    f_equal; [now apply ascii_eqb_eq | exact Hkw].
Qed.

Lemma keyword_intro w : forall kw s g,
  lower kw = lower w -> matches (keyword w) (kw ++ s) g s g.
Proof.
  induction w as [|c w IH]; intros kw s g H.
  - destruct kw; [constructor | discriminate].
  - destruct kw as [|x kw]; [discriminate|]. simpl in H.
    injection H as Hx Hkw. simpl.
    apply M_seq with (s1 := kw ++ s) (g1 := g); [|now apply IH].
    unfold ci. constructor. now apply ascii_eqb_eq.
Qed.

Lemma plus_inv p s g s' g' :
  matches (RRep p 1 None) s g s' g' ->
  exists run, s = run ++ s' /\ g' = g /\ forallb p run = true
              /\ 1 <= length run.
Proof. intro H. inv H. exists run. auto. Qed.

Lemma plus_intro p run s g :
  forallb p run = true -> 1 <= length run ->
  matches (RRep p 1 None) (run ++ s) g s g.
Proof. intros H1 H2. constructor; auto. discriminate. Qed.

Lemma lit_inv c s g s' g' :
  matches (lit c) s g s' g' -> s = c :: s' /\ g' = g.
Proof.
  unfold lit. intro H. inv H.
  match goal with H : ascii_eqb _ _ = true |- _ => apply ascii_eqb_eq in H end.
  subst. auto.
Qed.

Lemma occurs_select s : occurs select_pattern s <-> has_select_clause s.
Proof.
  unfold occurs, has_select_clause, select_pattern, seq, plus. split.
  - intros (pre & rest & s' & g & -> & H).
    apply seq_inv in H as (s1 & g1 & H1 & H).
    apply seq_inv in H as (s2 & g2 & H2 & H).
    apply seq_inv in H as (s3 & g3 & H3 & H).
    apply seq_inv in H as (s4 & g4 & H4 & H).
    apply seq_inv in H as (s5 & g5 & H5 & H).
    apply seq_inv in H as (s6 & g6 & H6 & H).
    apply seq_inv in H as (s7 & g7 & H7 & H).
    apply eps_inv in H as [-> ->].
    apply keyword_inv in H1 as (kw1 & -> & -> & Hk1).
    apply plus_inv in H2 as (ws1 & -> & -> & Hws1).
    apply lit_inv in H3 as [-> ->].
    apply plus_inv in H4 as (ws2 & -> & -> & Hws2).
    apply keyword_inv in H5 as (kw2 & -> & -> & Hk2).
    apply plus_inv in H6 as (ws3 & -> & -> & Hws3).
    apply group_plus_inv in H7 as (tbl & -> & -> & Htbl).
    exists pre, kw1, ws1, ws2, kw2, ws3, tbl, s7.
    repeat split; try tauto.
  - intros (pre & kw1 & ws1 & ws2 & kw2 & ws3 & tbl & rest & -> & Hk1 & Hk2
            & [Hw1 N1] & [Hw2 N2] & [Hw3 N3] & [Ht Nt]).
    eexists pre, _, rest, _. split; [reflexivity|].
    eapply M_seq; [apply keyword_intro; exact Hk1|].
    eapply M_seq; [apply plus_intro; eassumption|].
    eapply M_seq; [unfold lit; apply M_char; now apply ascii_eqb_eq|].
    eapply M_seq; [apply plus_intro; eassumption|].
    eapply M_seq; [apply keyword_intro; exact Hk2|].
    eapply M_seq; [apply plus_intro; eassumption|].
    eapply M_seq; [apply M_group; apply plus_intro; eassumption|].
    constructor.
Qed.

Lemma occurs_where s : occurs where_pattern s <-> has_where_clause s.
Proof.
  unfold occurs, has_where_clause, where_pattern, seq, plus. split.
  - intros (pre & rest & s' & g & -> & H).
    apply seq_inv in H as (s1 & g1 & H1 & H).
    apply seq_inv in H as (s2 & g2 & H2 & H).
    apply seq_inv in H as (s3 & g3 & H3 & H).
    apply eps_inv in H as [-> ->].
    apply keyword_inv in H1 as (kw & -> & -> & Hk).
    apply plus_inv in H2 as (ws & -> & -> & Hws).
    apply group_plus_inv in H3 as (run & -> & -> & Hrun & Nrun).
    destruct run as [|c run]; [simpl in Nrun; lia|].
    simpl in Hrun. apply andb_true_iff in Hrun as [Hc _].
    exists pre, kw, ws, c, (run ++ s3). repeat split; try tauto.
  - intros (pre & kw & ws & c & rest & -> & Hk & [Hw Nw] & Hc).
    eexists pre, _, rest, _. split; [reflexivity|].
    eapply M_seq; [apply keyword_intro; exact Hk|].
    eapply M_seq; [apply plus_intro; eassumption|].
    eapply M_seq; [|constructor].
    apply M_group. apply (@plus_intro is_dot [c] rest).
    + simpl. now rewrite Hc.
    + simpl. lia.
Qed.

Lemma search_select q :
  re_search select_pattern (strip q) <> None <-> has_select_clause (strip q).
Proof. rewrite re_search_occurs. apply occurs_select. Qed.

Lemma search_where q :
  re_search where_pattern (strip q) <> None <-> has_where_clause (strip q).
Proof. rewrite re_search_occurs. apply occurs_where. Qed.

Ltac clear_exists :=
  repeat match goal with
         | H : exists _, _ |- _ => destruct H
         | H : _ /\ _ |- _ => destruct H
         end.

Lemma errors_distinct : InvalidSelect <> MissingWhere.
Proof. unfold InvalidSelect, MissingWhere. intro H. discriminate H. Qed.

(** C8 (as amended): [parse] fails with the InvalidSelect message exactly
    when the trimmed input holds no SELECT clause anywhere; it fails with
    the MissingWhere message exactly when the trimmed input holds a SELECT
    clause and holds nowhere, before or after it, the keyword WHERE followed
    by white space and a character that is not a newline; it succeeds
    exactly when both are found.  The two errors differ, they are the only
    ones, and a failure carries no ParsedQuery. *)
Theorem C8_parse_errors :
  forall q,
    (parse q = Raise InvalidSelect <-> ~ has_select_clause (strip q))
    /\ (parse q = Raise MissingWhere <->
        has_select_clause (strip q) /\ ~ has_where_clause (strip q))
    /\ ((exists pq, parse q = Ok pq) <->
        has_select_clause (strip q) /\ has_where_clause (strip q))
    /\ InvalidSelect <> MissingWhere
    /\ (forall e, parse q = Raise e ->
          (e = InvalidSelect \/ e = MissingWhere)
          /\ forall pq, parse q <> Ok pq).
Proof.
  intro q.
  assert (HS := search_select q). assert (HW := search_where q).
  assert (D := errors_distinct).
  unfold parse.
  destruct (re_search select_pattern (strip q)) as [[tg tr]|];
    [destruct (re_search where_pattern (strip q)) as [[wg wr]|]|].
  - assert (S : has_select_clause (strip q)) by (apply HS; discriminate).
    assert (W : has_where_clause (strip q)) by (apply HW; discriminate).
    repeat split; intros; clear_exists; try discriminate; try tauto; eauto.
  - assert (S : has_select_clause (strip q)) by (apply HS; discriminate).
    assert (W : ~ has_where_clause (strip q)).
    { intro W. apply HW in W. congruence. }
    repeat split; intros; clear_exists; try discriminate; try tauto;
      try congruence; try (right; congruence).
  - assert (S : ~ has_select_clause (strip q)).
    { intro S. apply HS in S. congruence. }
    repeat split; intros; clear_exists; try discriminate; try tauto;
      try congruence; try (left; congruence).
Qed.

(** C8 fails as stated: in the input below the SELECT clause ends the text,
    no WHERE clause follows it, and [parse] succeeds all the same, with the
    WHERE clause it finds before the SELECT clause. *)
Lemma C8_counterexample :
  parse (T "WHERE a = 1 AND SELECT * FROM t")
  = Ok {| table_name := T "t";
          conditions := [ {| column := T "a"; operator := T "=";
                             value := VInt 1; original_text := T "a = 1" |} ];
          original_query := T "WHERE a = 1 AND SELECT * FROM t" |}
  /\ has_select_clause (T "SELECT * FROM t")
  /\ ~ has_where_clause (T "SELECT * FROM t").
Proof.
  split; [vm_compute; reflexivity|]. split.
  - apply occurs_select, re_search_occurs. vm_compute. discriminate.
  - intro H. apply occurs_where, re_search_occurs in H. apply H.
    vm_compute. reflexivity.
Qed.

(** ** The order of the scores *)

Lemma check3_spec P :
  check3 P = true ->
  forall x y z,
    In x all_scores -> In y all_scores -> In z all_scores -> P x y z = true.
Proof.
  unfold check3. intros H x y z Hx Hy Hz.
  rewrite forallb_forall in H. specialize (H x Hx).
  rewrite forallb_forall in H. specialize (H y Hy).
  rewrite forallb_forall in H. exact (H z Hz).
Qed.

Lemma scores_total x y :
  In x all_scores -> In y all_scores -> flt x y = false -> fle y x = true.
Proof.
  intros Hx Hy.
  assert (H := @check3_spec (fun x y _ => flt x y || fle y x)
                 ltac:(vm_compute; reflexivity) x y x Hx Hy Hx).
  simpl in H. intro E. rewrite E in H. exact H.
Qed.

Lemma scores_lt_le x y :
  In x all_scores -> In y all_scores -> flt x y = true -> fle x y = true.
Proof.
  intros Hx Hy.
  assert (H := @check3_spec (fun x y _ => negb (flt x y) || fle x y)
                 ltac:(vm_compute; reflexivity) x y x Hx Hy Hx).
  simpl in H. intro E. rewrite E in H. exact H.
Qed.

Lemma scores_le_trans x y z :
  In x all_scores -> In y all_scores -> In z all_scores ->
  fle x y = true -> fle y z = true -> fle x z = true.
Proof.
  intros Hx Hy Hz.
  assert (H := @check3_spec
                 (fun x y z => negb (fle x y) || negb (fle y z) || fle x z)
                 ltac:(vm_compute; reflexivity) x y z Hx Hy Hz).
  simpl in H. intros E1 E2. rewrite E1, E2 in H. exact H.
Qed.

Lemma scores_lt_le_trans x y z :
  In x all_scores -> In y all_scores -> In z all_scores ->
  flt x y = true -> fle y z = true -> flt x z = true.
Proof.
  intros Hx Hy Hz.
  assert (H := @check3_spec
                 (fun x y z => negb (flt x y) || negb (fle y z) || flt x z)
                 ltac:(vm_compute; reflexivity) x y z Hx Hy Hz).
  simpl in H. intros E1 E2. rewrite E1, E2 in H. exact H.
Qed.

Lemma scores_lt_neq x z v :
  In x all_scores -> In z all_scores -> In v all_scores ->
  flt x z = true -> feq x v = true -> feq z v = false.
Proof.
  intros Hx Hz Hv.
  assert (H := @check3_spec
                 (fun x z v => negb (flt x z) || negb (feq x v) || negb (feq z v))
                 ltac:(vm_compute; reflexivity) x z v Hx Hz Hv).
  simpl in H. intros E1 E2. rewrite E1, E2 in H. simpl in H.
  now destruct (feq z v).
Qed.

Ltac dict_leaves key :=
  repeat match goal with
         | |- context [text_eqb ?k key] => destruct (text_eqb k key)
         end;
  auto 12.

Lemma base_score_in c : In (base_score_of c) base_scores.
Proof.
  unfold base_score_of, selectivity_rules, base_scores.
  generalize (operator c). intro key. cbn [dict_get In]. dict_leaves key.
Qed.

Lemma column_modifier_in c : In (column_modifier_of c) column_scores.
Proof.
  unfold column_modifier_of, column_modifiers, column_scores.
  generalize (lower (column c)). intro key. cbn [dict_get In].
  dict_leaves key.
Qed.

Lemma value_modifier_in fs c : In (value_modifier_of fs c) value_scores.
Proof.
  unfold value_modifier_of, value_modifiers, value_scores.
  generalize (lower (str_value fs (value c))). intro key.
  cbn [dict_get In]. dict_leaves key.
Qed.

Lemma score_in_all fs c : In (score_of fs c) all_scores.
Proof.
  unfold score_of, score_condition, all_scores. cbn [score].
  apply in_flat_map. exists (base_score_of c). split; [apply base_score_in|].
  apply in_flat_map. exists (column_modifier_of c).
  split; [apply column_modifier_in|].
  apply in_map_iff. exists (value_modifier_of fs c).
  split; [reflexivity | apply value_modifier_in].
Qed.

(** ** The stable sort *)

Lemma filter_none (A : Type) (p : A -> bool) l :
  (forall z, In z l -> p z = false) -> filter p l = [].
Proof.
  induction l as [|y l IH]; intro H; [reflexivity|]. simpl.
  rewrite (H y (or_introl eq_refl)). apply IH. intros z Hz. apply H. now right.
Qed.

Section InsertionSort.

Variable A : Type.
Variable key : A -> pyfloat.

Let ins := fun acc x => insert_by key x acc.

Lemma insert_by_perm x l : Permutation (insert_by key x l) (x :: l).
Proof.
  induction l as [|y l IH]; simpl; [reflexivity|].
  destruct (flt (key x) (key y)); [reflexivity|].
  rewrite IH. apply perm_swap.
Qed.

Lemma fold_insert_perm l : forall acc,
  Permutation (fold_left ins l acc) (acc ++ l).
Proof.
  induction l as [|x l IH]; intro acc; simpl.
  - now rewrite app_nil_r.
  - rewrite IH. unfold ins. rewrite insert_by_perm.
    apply Permutation_middle.
Qed.

Lemma sorted_perm l : Permutation (sorted key l) l.
Proof. unfold sorted. apply (fold_insert_perm l []). Qed.

Hypothesis key_in : forall a, In (key a) all_scores.

Lemma insert_by_sorted x l :
  StronglySorted (key_le key) l ->
  StronglySorted (key_le key) (insert_by key x l).
Proof.
  induction 1 as [|y l Hl IH Hy]; simpl.
  - constructor; constructor.
  - destruct (flt (key x) (key y)) eqn:E.
    + assert (Hxy : key_le key x y)
        by (apply scores_lt_le; auto).
      constructor; [constructor; assumption|].
      constructor; [exact Hxy|].
      rewrite Forall_forall in *. intros z Hz.
      apply scores_le_trans with (y := key y); auto. now apply Hy.
    + constructor; [exact IH|].
      rewrite Forall_forall in *. intros z Hz.
      apply (Permutation_in _ (insert_by_perm x l)) in Hz.
      destruct Hz as [<-|Hz]; [|now apply Hy].
      apply scores_total; auto.
Qed.

Lemma fold_insert_sorted l : forall acc,
  StronglySorted (key_le key) acc ->
  StronglySorted (key_le key) (fold_left ins l acc).
Proof.
  induction l as [|x l IH]; intros acc H; simpl; [exact H|].
  apply IH. now apply insert_by_sorted.
Qed.

Lemma sorted_strongly l : StronglySorted (key_le key) (sorted key l).
Proof. apply fold_insert_sorted. constructor. Qed.

Lemma insert_by_filter a0 x l :
  StronglySorted (key_le key) l ->
  filter (same_key key a0) (insert_by key x l)
  = filter (same_key key a0) l ++ filter (same_key key a0) [x].
Proof.
  induction 1 as [|y l Hl IH Hy]; [reflexivity|].
  cbn [insert_by]. destruct (flt (key x) (key y)) eqn:E.
  - destruct (same_key key a0 x) eqn:Px.
    + assert (Hnone : filter (same_key key a0) (y :: l) = []).
      { apply filter_none.
        intros z Hz. unfold same_key.
        apply scores_lt_neq with (x := key x); auto.
        destruct Hz as [<-|Hz]; [exact E|].
        apply scores_lt_le_trans with (y := key y); auto.
        rewrite Forall_forall in Hy. now apply Hy. }
      cbn [filter] in *. rewrite Px. rewrite Hnone. reflexivity.
    + cbn [filter]. rewrite Px. now rewrite app_nil_r.
  - cbn [filter] in *. rewrite IH.
    destruct (same_key key a0 y); reflexivity.
Qed.

Lemma fold_insert_filter a0 l : forall acc,
  StronglySorted (key_le key) acc ->
  filter (same_key key a0) (fold_left ins l acc)
  = filter (same_key key a0) acc ++ filter (same_key key a0) l.
Proof.
  induction l as [|x l IH]; intros acc H; simpl fold_left.
  - now rewrite app_nil_r.
  - rewrite IH by now apply insert_by_sorted.
    unfold ins. rewrite insert_by_filter by exact H.
    rewrite <- app_assoc. f_equal.
    cbn [filter]. destruct (same_key key a0 x); reflexivity.
Qed.

Lemma sorted_stable a0 l :
  filter (same_key key a0) (sorted key l) = filter (same_key key a0) l.
Proof. unfold sorted. rewrite fold_insert_filter; [reflexivity | constructor]. Qed.

End InsertionSort.

Lemma insert_by_map (A B : Type) (key : A -> pyfloat) (f : B -> A) x l :
  insert_by key (f x) (map f l) = map f (insert_by (fun b => key (f b)) x l).
Proof.
  induction l as [|y l IH]; simpl; [reflexivity|].
  destruct (flt (key (f x)) (key (f y))); simpl; [reflexivity|].
  now rewrite IH.
Qed.

Lemma sorted_map (A B : Type) (key : A -> pyfloat) (f : B -> A) l :
  sorted key (map f l) = map f (sorted (fun b => key (f b)) l).
Proof.
  unfold sorted. change (@nil A) with (map f []). generalize (@nil B).
  induction l as [|x l IH]; intro acc; simpl; [reflexivity|].
  rewrite insert_by_map. apply IH.
Qed.

Lemma apply_rules_sorted fs l :
  _apply_optimization_rules fs l = sorted (score_of fs) l.
Proof.
  unfold _apply_optimization_rules. rewrite sorted_map, map_map.
  unfold score_of. apply map_id.
Qed.

Lemma optimized_conditions_sorted fs pq :
  optimized_conditions (optimize fs pq)
  = sorted (score_of fs) (conditions pq).
Proof.
  unfold optimize. destruct (conditions pq) as [|c l] eqn:E.
  - reflexivity.
  - cbn [optimized_conditions]. apply apply_rules_sorted.
Qed.

(** ** The optimizer reorders and sorts *)

(** C4: the optimized conditions are a permutation of the conditions of the
    parsed query. *)
Theorem C4_optimize_permutation :
  forall float_str pq,
    Permutation (optimized_conditions (optimize float_str pq))
                (conditions pq).
Proof.
  intros fs pq. rewrite optimized_conditions_sorted. apply sorted_perm.
Qed.

(** C5: in the optimized conditions the score at each position is at most
    the score at the next one, and the conditions with a given score stand
    in the order they have in the input. *)
Theorem C5_optimize_sorted_stable :
  forall float_str pq,
    Sorted (fun a b => fle (score_of float_str a) (score_of float_str b) = true)
           (optimized_conditions (optimize float_str pq))
    /\ forall c0,
         filter (fun c => feq (score_of float_str c) (score_of float_str c0))
                (optimized_conditions (optimize float_str pq))
         = filter (fun c => feq (score_of float_str c) (score_of float_str c0))
                  (conditions pq).
Proof.
  intros fs pq. rewrite optimized_conditions_sorted. split.
  - apply StronglySorted_Sorted.
    apply (sorted_strongly (score_of fs) (score_in_all fs)).
  - intro c0.
    apply (sorted_stable (score_of fs) (score_in_all fs) c0).
Qed.

(** * Further properties of the parser *)

(** X1: white space around the query does not matter: parsing the trimmed
    query gives the same result, error or parsed query. *)
Theorem X1_parse_strip : forall q, parse (strip q) = parse q.
Proof. intro q. unfold parse. now rewrite strip_idempotent. Qed.

Lemma select_match_shape s g rest :
  re_match select_pattern s = Some (g, rest) ->
  exists tbl, g = [(1, tbl)] /\ forallb is_word tbl = true
              /\ 1 <= length tbl.
Proof.
  intro H. apply re_match_sound in H.
  unfold select_pattern, seq, plus in H.
  apply seq_inv in H as (s1 & g1 & H1 & H).
  apply seq_inv in H as (s2 & g2 & H2 & H).
  apply seq_inv in H as (s3 & g3 & H3 & H).
  apply seq_inv in H as (s4 & g4 & H4 & H).
  apply seq_inv in H as (s5 & g5 & H5 & H).
  apply seq_inv in H as (s6 & g6 & H6 & H).
  apply seq_inv in H as (s7 & g7 & H7 & H).
  apply eps_inv in H as [-> ->].
  apply keyword_inv in H1 as (kw1 & -> & -> & Hk1).
  apply plus_inv in H2 as (ws1 & -> & -> & Hws1).
  apply lit_inv in H3 as [-> ->].
  apply plus_inv in H4 as (ws2 & -> & -> & Hws2).
  apply keyword_inv in H5 as (kw2 & -> & -> & Hk2).
  apply plus_inv in H6 as (ws3 & -> & -> & Hws3).
  apply group_plus_inv in H7 as (tbl & -> & -> & Htbl).
  exists tbl. tauto.
Qed.

Lemma re_search_match r s x :
  re_search r s = Some x -> exists s', re_match r s' = Some x.
Proof.
  induction s as [|c s IH]; simpl.
  - destruct (re_match r []) eqn:E; [|discriminate].
    intro H. injection H as <-. eauto.
  - destruct (re_match r (c :: s)) eqn:E.
    + intro H. injection H as <-. eauto.
    + exact IH.
Qed.

(** X2: after a successful parse the table name is a non-empty run of word
    characters and the original query is the trimmed input. *)
Theorem X2_parse_ok_fields :
  forall q pq,
    parse q = Ok pq ->
    original_query pq = strip q
    /\ table_name pq <> []
    /\ forallb is_word (table_name pq) = true.
Proof.
  intros q pq. unfold parse.
  destruct (re_search select_pattern (strip q)) as [[tg tr]|] eqn:S;
    [|discriminate].
  destruct (re_search where_pattern (strip q)) as [[wg wr]|];
    [|discriminate].
  intro H. injection H as <-. cbn [original_query table_name].
  apply re_search_match in S as [s' S].
  apply select_match_shape in S as (tbl & -> & Hw & Hn).
  unfold group. cbn [get_group Nat.eqb].
  repeat split; [now apply length_pos_nonempty | exact Hw].
Qed.

Lemma X2_parse_ok_fields_witness :
  original_query
    {| table_name := T "users"; conditions := [cond_age_25];
       original_query := T "SELECT * FROM users WHERE age > 25" |}
  = strip (T "  SELECT * FROM users WHERE age > 25 ")
  /\ T "users" <> []
  /\ forallb is_word (T "users") = true.
Proof.
  apply (@X2_parse_ok_fields (T "  SELECT * FROM users WHERE age > 25 ")
           {| table_name := T "users"; conditions := [cond_age_25];
              original_query := T "SELECT * FROM users WHERE age > 25" |}).
  vm_compute. reflexivity.
Defined.

Lemma parse_parts_texts parts :
  map (@original_text) (parse_parts parts) = map strip (filter parses parts).
Proof.
  induction parts as [|part parts IH]; [reflexivity|].
  rewrite parse_parts_cons. cbn [filter]. unfold parses at 1.
  destruct (_parse_single_condition part) as [c|] eqn:E; [|exact IH].
  cbn [map]. rewrite IH. f_equal.
  unfold _parse_single_condition in E.
  destruct (re_match condition_pattern (strip part)) as [[g r]|];
    [|discriminate].
  injection E as <-. reflexivity.
Qed.

(** X3: the conditions of a parsed query are, in source order, the
    AND-separated fragments of the WHERE clause that match the condition
    pattern: their original texts are those fragments, trimmed. *)
Theorem X3_conditions_source_order :
  forall q pq,
    parse q = Ok pq ->
    map (@original_text) (conditions pq)
    = map strip (filter parses (fragments q)).
Proof.
  intros q pq H. rewrite (parse_ok_conditions _ H). apply parse_parts_texts.
Qed.

Lemma X3_conditions_source_order_witness :
  map (@original_text) [cond_age_25; cond_country_US]
  = map strip
      (filter parses
         (fragments
            (T "SELECT * FROM users WHERE age > 25 AND foo AND country = 'US'"))).
Proof.
  apply (@X3_conditions_source_order
           (T "SELECT * FROM users WHERE age > 25 AND foo AND country = 'US'")
           {| table_name := T "users";
              conditions := [cond_age_25; cond_country_US];
              original_query :=
                T "SELECT * FROM users WHERE age > 25 AND foo AND country = 'US'" |}).
  vm_compute. reflexivity.
Defined.

(** X4: in a condition built by the parser the column is a non-empty run of
    word characters, the original text starts with the column, white space
    and the operator, and it has no white space at either end. *)
Theorem X4_parsed_condition_shape :
  forall part c,
    _parse_single_condition part = Some c ->
    column c <> []
    /\ forallb is_word (column c) = true
    /\ (exists ws rest,
          forallb is_space ws = true
          /\ original_text c = column c ++ ws ++ operator c ++ rest)
    /\ strip (original_text c) = original_text c.
Proof.
  intros part c H.
  assert (Ht : original_text c = strip part).
  { unfold _parse_single_condition in H.
    destruct (re_match condition_pattern (strip part)) as [[g r]|];
      [|discriminate].
    injection H as <-. reflexivity. }
  unfold _parse_single_condition in H.
  destruct (re_match condition_pattern (strip part)) as [[g r]|] eqn:E;
    [|discriminate].
  destruct (condition_match_shape _ E)
    as (col & ws1 & op & ws2 & qt & tok & Hs & -> & [Hcol Ncol] & Hws1 & _).
  injection H as <-. unfold group. cbn [get_group Nat.eqb column operator
                                         original_text].
  repeat split.
  - now apply length_pos_nonempty.
  - exact Hcol.
  - exists ws1, (ws2 ++ qt ++ tok ++ qt ++ r). split; [exact Hws1 | exact Hs].
  - apply strip_idempotent.
Qed.

Lemma X4_parsed_condition_shape_witness :
  column cond_age_25 <> []
  /\ forallb is_word (column cond_age_25) = true
  /\ (exists ws rest,
        forallb is_space ws = true
        /\ original_text cond_age_25
           = column cond_age_25 ++ ws ++ operator cond_age_25 ++ rest)
  /\ strip (original_text cond_age_25) = original_text cond_age_25.
Proof.
  apply (@X4_parsed_condition_shape (T " age > 25  ") cond_age_25).
  vm_compute. reflexivity.
Defined.

Lemma split_go_no_match r s : forall cur,
  re_search r s = None -> split_go r s 0 cur = [rev cur ++ s].
Proof.
  induction s as [|c s IH]; intros cur H; simpl.
  - now rewrite app_nil_r.
  - simpl in H. destruct (re_match r (c :: s)) eqn:E; [discriminate|].
    rewrite (IH (c :: cur) H). simpl. now rewrite <- app_assoc.
Qed.

(** X5: a WHERE clause in which the separator (white space, AND, white
    space) occurs nowhere is one fragment, the clause itself. *)
Theorem X5_split_without_and :
  forall w,
    re_search and_pattern w = None -> re_split and_pattern w = [w].
Proof. intros w H. unfold re_split. now rewrite split_go_no_match. Qed.

Lemma X5_split_without_and_witness :
  re_split and_pattern (T "brand = 'SANDRO'") = [T "brand = 'SANDRO'"].
Proof.
  apply (@X5_split_without_and (T "brand = 'SANDRO'")).
  vm_compute. reflexivity.
Defined.

Lemma opchar_valchar c : is_opchar c = true -> is_valchar c = true.
Proof. ascii_cases c. Qed.

Lemma valchar_head tok :
  forallb is_valchar tok = true -> 1 <= length tok ->
  exists t tok', tok = t :: tok' /\ is_valchar t = true.
Proof.
  destruct tok as [|t tok']; simpl; [lia|]. intros H _.
  apply andb_true_iff in H as [Ht _]. eauto.
Qed.

Lemma condition_match_unquoted col ws1 op ws2 tok rest :
  forallb is_word col = true -> 1 <= length col ->
  forallb is_space ws1 = true ->
  forallb is_opchar op = true -> 1 <= length op ->
  forallb is_space ws2 = true ->
  forallb is_valchar tok = true -> 1 <= length tok ->
  stops is_opchar (ws2 ++ tok) -> stops is_valchar rest ->
  re_match condition_pattern (col ++ ws1 ++ op ++ ws2 ++ tok ++ rest)
  = Some ([(4, tok); (3, []); (2, op); (1, col)], rest).
Proof.
  intros Hcol Ncol Hws1 Hop Nop Hws2 Htok Ntok Sop Sval.
  destruct (@valchar_head tok Htok Ntok) as (t & tok' & Et & Ht).
  assert (Sq : is_quote t = false) by now apply valchar_not_quote.
  assert (Ss : is_space t = false) by now apply valchar_not_space.
  unfold re_match, condition_pattern, seq, plus, star, opt.
  cbn [rmatch].
  apply rep_greedy; [exact Hcol | exact Ncol | |].
  { apply stops_app with (q := is_space); auto using space_not_word.
    apply stops_app_nonempty with (q := is_opchar);
      auto using opchar_not_word. }
  rewrite firstn_run.
  apply rep_greedy; [exact Hws1 | lia | |].
  { apply stops_app_nonempty with (q := is_opchar);
      auto using opchar_not_space. }
  apply rep_greedy; [exact Hop | exact Nop | |].
  { rewrite Et in Sop |- *. destruct ws2 as [|x l]; exact Sop. }
  rewrite firstn_run.
  apply rep_greedy; [exact Hws2 | lia | |].
  { subst tok. exact Ss. }
  assert (Hopt : forall (k : text -> option (groups * text)),
            rep is_quote (Some 1) 0 (tok ++ rest) k = k (tok ++ rest)).
  { intro k. subst tok. cbn [app rep]. rewrite Sq. reflexivity. }
  rewrite Hopt. rewrite Nat.sub_diag. cbn [firstn].
  apply rep_greedy; [exact Htok | exact Ntok | exact Sval |].
  rewrite firstn_run. unfold set_group. cbn [get_group Nat.eqb strip_prefix].
  reflexivity.
Qed.

(** X6: a fragment [<identifier> <operator> <token>] with an unquoted token
    of value characters parses, whatever follows the token after white
    space or a quote; the value is typed from the token alone and the
    original text keeps the whole fragment. *)
Theorem X6_unquoted_value :
  forall col ws1 op ws2 tok rest,
    forallb is_word col = true -> 1 <= length col ->
    forallb is_space ws1 = true ->
    forallb is_opchar op = true -> 1 <= length op ->
    forallb is_space ws2 = true ->
    forallb is_valchar tok = true -> 1 <= length tok ->
    stops is_opchar (ws2 ++ tok) -> stops is_valchar rest ->
    no_space_head (rev (tok ++ rest)) ->
    _parse_single_condition (col ++ ws1 ++ op ++ ws2 ++ tok ++ rest)
    = Some {| column := col; operator := op;
              value := convert_value [] tok;
              original_text := col ++ ws1 ++ op ++ ws2 ++ tok ++ rest |}.
Proof.
  intros col ws1 op ws2 tok rest Hcol Ncol Hws1 Hop Nop Hws2 Htok Ntok
         Sop Sval Hend.
  unfold _parse_single_condition.
  assert (Hs : strip (col ++ ws1 ++ op ++ ws2 ++ tok ++ rest)
               = col ++ ws1 ++ op ++ ws2 ++ tok ++ rest).
  { apply strip_fix.
    - apply forallb_head_false with (p := is_word);
        auto using word_not_space.
    - replace (col ++ ws1 ++ op ++ ws2 ++ tok ++ rest)
        with ((col ++ ws1 ++ op ++ ws2) ++ (tok ++ rest))
        by (repeat rewrite <- app_assoc; reflexivity).
      rewrite rev_app_distr.
      destruct (rev (tok ++ rest)) as [|x l] eqn:E; [|exact Hend].
      exfalso. apply (f_equal (@rev ascii)) in E.
      rewrite rev_involutive in E. simpl in E.
      destruct tok; [simpl in Ntok; lia | discriminate E]. }
  rewrite Hs.
  rewrite (@condition_match_unquoted col ws1 op ws2 tok rest);
    [| assumption ..].
  unfold group. cbn [get_group Nat.eqb]. reflexivity.
Qed.

Lemma X6_unquoted_value_witness :
  _parse_single_condition (T "age > 25 years")
  = Some {| column := T "age"; operator := T ">";
            value := convert_value [] (T "25");
            original_text := T "age > 25 years" |}.
Proof.
  apply (@X6_unquoted_value (T "age") (T " ") (T ">") (T " ") (T "25")
           (T " years"));
    solve [vm_compute; reflexivity | simpl; lia].
Defined.

(** The greedy repetition gives back its last character when the rest of
    the pattern fails at the end of the run and accepts one character
    less. *)
Lemma rep_backtrack_last (A : Type) p (k : text -> option A) x c :
  p c = true -> k [] = None -> k [c] = Some x ->
  forall run lo,
    forallb p run = true -> lo <= length run ->
    rep p None lo (run ++ [c]) k = Some x.
Proof.
  intros Hc Hnil Hk. induction run as [|a run IH]; intros lo Hrun Hlo.
  - simpl in Hlo. assert (lo = 0) by lia. subst lo.
    cbn [app rep]. rewrite Hc. cbn [may_take andb pred dec_hi Nat.eqb].
    rewrite Hnil. exact Hk.
  - simpl in Hrun. apply andb_true_iff in Hrun as [Ha Hrun].
    cbn [app rep]. rewrite Ha. cbn [may_take andb dec_hi].
    rewrite (IH (pred lo) Hrun); [reflexivity | simpl in Hlo; lia].
Qed.

Lemma opchar_convert o :
  is_opchar o = true -> convert_value [] [o] = VStr [o].
Proof. ascii_cases o. Qed.

(** X7: a fragment that ends right after an operator run of two characters
    or more still parses: the last operator character is read as the value,
    a string, and the operator is the run without it. *)
Theorem X7_operator_gives_back_value :
  forall col ws1 op o,
    forallb is_word col = true -> 1 <= length col ->
    forallb is_space ws1 = true ->
    forallb is_opchar op = true -> 1 <= length op ->
    is_opchar o = true ->
    _parse_single_condition (col ++ ws1 ++ op ++ [o])
    = Some {| column := col; operator := op; value := VStr [o];
              original_text := col ++ ws1 ++ op ++ [o] |}.
Proof.
  intros col ws1 op o Hcol Ncol Hws1 Hop Nop Ho.
  assert (Hv : is_valchar o = true) by now apply opchar_valchar.
  assert (Hs : is_space o = false) by now apply opchar_not_space.
  assert (Hq : is_quote o = false) by now apply opchar_not_quote.
  unfold _parse_single_condition.
  assert (Hstrip : strip (col ++ ws1 ++ op ++ [o]) = col ++ ws1 ++ op ++ [o]).
  { apply strip_fix.
    - apply forallb_head_false with (p := is_word);
        auto using word_not_space.
    - replace (col ++ ws1 ++ op ++ [o]) with ((col ++ ws1 ++ op) ++ [o])
        by (repeat rewrite <- app_assoc; reflexivity).
      rewrite rev_app_distr. exact Hs. }
  rewrite Hstrip.
  assert (Hm : re_match condition_pattern (col ++ ws1 ++ op ++ [o])
               = Some ([(4, [o]); (3, []); (2, op); (1, col)], [])).
  { unfold re_match, condition_pattern, seq, plus, star, opt.
    cbn [rmatch].
    apply rep_greedy; [exact Hcol | exact Ncol | |].
    { apply stops_app with (q := is_space); auto using space_not_word.
      apply stops_app_nonempty with (q := is_opchar);
        auto using opchar_not_word. }
    rewrite firstn_run.
    apply rep_greedy; [exact Hws1 | lia | |].
    { apply stops_app_nonempty with (q := is_opchar);
        auto using opchar_not_space. }
    apply rep_backtrack_last; [exact Ho | reflexivity | | exact Hop | exact Nop].
    rewrite firstn_run. cbn [rep]. rewrite Hs, Hq, Hv.
    cbn [andb may_take dec_hi pred Nat.eqb length Nat.sub firstn].
    unfold set_group. cbn [get_group Nat.eqb strip_prefix]. reflexivity. }
  rewrite Hm. unfold group. cbn [get_group Nat.eqb].
  now rewrite opchar_convert.
Qed.

Lemma X7_operator_gives_back_value_witness :
  _parse_single_condition (T "age >=")
  = Some {| column := T "age"; operator := T ">"; value := VStr (T "=");
            original_text := T "age >=" |}.
Proof.
  apply (@X7_operator_gives_back_value (T "age") (T " ") (T ">") "="%char);
    solve [vm_compute; reflexivity | simpl; lia].
Defined.

Lemma span_unique (p : ascii -> bool) : forall a b x y,
  forallb p a = true -> forallb p b = true -> stops p x -> stops p y ->
  a ++ x = b ++ y -> a = b /\ x = y.
Proof.
  induction a as [|c a IH]; intros [|d b] x y Ha Hb Sx Sy E; simpl in *.
  - auto.
  - subst x. simpl in Sx. apply andb_true_iff in Hb as [Hd _]. congruence.
  - subst y. simpl in Sy. apply andb_true_iff in Ha as [Hc _]. congruence.
  - apply andb_true_iff in Ha as [_ Ha]. apply andb_true_iff in Hb as [_ Hb].
    injection E as -> E. destruct (IH b x y Ha Hb Sx Sy E) as [-> ->]. auto.
Qed.

Lemma forallb_In_true (p : ascii -> bool) l c :
  forallb p l = true -> In c l -> p c = true.
Proof. intros H Hin. rewrite forallb_forall in H. now apply H. Qed.

Lemma prefix_stop (p : ascii -> bool) (b y : text) :
  forallb p b = true -> stops p (b ++ y) -> b = [].
Proof.
  destruct b as [|c b]; [reflexivity|]. simpl. intros H S.
  apply andb_true_iff in H as [Hc _]. congruence.
Qed.

(** X8: with a one-character operator, a value that opens with a quote and
    is not closed does not parse. *)
Theorem X8_unterminated_quote :
  forall col ws1 o ws2 q txt,
    forallb is_word col = true -> 1 <= length col ->
    forallb is_space ws1 = true ->
    is_opchar o = true ->
    forallb is_space ws2 = true ->
    is_quote q = true ->
    forallb is_valchar txt = true ->
    _parse_single_condition (col ++ ws1 ++ o :: ws2 ++ q :: txt) = None.
Proof.
  intros col ws1 o ws2 q txt Hcol Ncol Hws1 Ho Hws2 Hq Htxt.
  assert (Hqv : is_valchar q = false) by now apply quote_not_valchar.
  assert (Hstrip : strip (col ++ ws1 ++ o :: ws2 ++ q :: txt)
                   = col ++ ws1 ++ o :: ws2 ++ q :: txt).
  { apply strip_fix.
    - apply forallb_head_false with (p := is_word);
        auto using word_not_space.
    - replace (col ++ ws1 ++ o :: ws2 ++ q :: txt)
        with ((col ++ ws1 ++ o :: ws2) ++ q :: txt)
        by (repeat (rewrite <- app_assoc; simpl); reflexivity).
      rewrite rev_app_distr.
      destruct (rev (q :: txt)) as [|x l] eqn:R.
      { apply (f_equal (@rev ascii)) in R. rewrite rev_involutive in R.
        discriminate R. }
      simpl.
      assert (Hx : In x (q :: txt)).
      { apply in_rev. rewrite R. now left. }
      destruct Hx as [<-|Hx]; [now apply quote_not_space|].
      apply valchar_not_space. eapply forallb_In_true; eauto. }
  unfold _parse_single_condition. rewrite Hstrip.
  destruct (re_match condition_pattern (col ++ ws1 ++ o :: ws2 ++ q :: txt))
    as [[g rest']|] eqn:M; [exfalso | reflexivity].
  destruct (condition_match_shape _ M)
    as (col' & ws1' & op' & ws2' & q' & tok' & Hs & _ & [Hcol' _] & Hws1'
        & [Hop' Nop'] & Hws2' & [Hq' Nq'] & [Htok' Ntok']).
  (* the column and the white space after it *)
  apply (@span_unique is_word) in Hs as [<- Hs]; auto.
  2:{ apply stops_app with (q := is_space); auto using space_not_word.
      apply stops_cons. now apply opchar_not_word. }
  2:{ apply stops_app with (q := is_space); auto using space_not_word.
      apply stops_app_nonempty with (q := is_opchar);
        auto using opchar_not_word. }
  apply (@span_unique is_space) in Hs as [<- Hs]; auto.
  2:{ apply stops_cons. now apply opchar_not_space. }
  2:{ apply stops_app_nonempty with (q := is_opchar);
        auto using opchar_not_space. }
  (* the operator is the single character *)
  destruct op' as [|o' op'']; [simpl in Nop'; lia|].
  simpl in Hs, Hop'. injection Hs as <- Hs.
  apply andb_true_iff in Hop' as [_ Hop''].
  assert (op'' = []).
  { apply (@prefix_stop is_opchar op''
             (ws2' ++ q' ++ tok' ++ q' ++ rest') Hop'').
    rewrite <- Hs.
    apply stops_app with (q := is_space); auto using space_not_opchar.
    apply stops_cons. now apply quote_not_opchar. }
  subst op''. simpl in Hs.
  (* the white space before the value *)
  apply (@span_unique is_space) in Hs as [<- Hs]; auto.
  2:{ apply stops_cons. now apply quote_not_space. }
  2:{ destruct q' as [|x q''].
      - simpl. apply stops_app_nonempty with (q := is_valchar);
          auto using valchar_not_space.
      - simpl in Hq'. apply andb_true_iff in Hq' as [Hx _].
        apply stops_cons. now apply quote_not_space. }
  (* the value *)
  destruct q' as [|x [|y q'']]; simpl in Hs, Nq'; [| |lia].
  - destruct tok' as [|t tok'']; [simpl in Ntok'; lia|].
    simpl in Hs, Htok'. injection Hs as <- _.
    apply andb_true_iff in Htok' as [Ht _]. congruence.
  - injection Hs as <- Hs.
    assert (Hin : In q txt).
    { rewrite Hs. apply in_or_app. right. now left. }
    assert (Hv : is_valchar q = true)
      by exact (forallb_In_true is_valchar txt q Htxt Hin).
    congruence.
Qed.

Lemma X8_unterminated_quote_witness :
  _parse_single_condition (T "country = 'US") = None.
Proof.
  apply (@X8_unterminated_quote (T "country") (T " ") "="%char (T " ")
           "'"%char (T "US"));
    solve [vm_compute; reflexivity | simpl; lia].
Defined.

(** * Further properties of the scorer *)

Lemma check_factors_spec P :
  check_factors P = true ->
  forall b m v,
    In b base_scores -> In m column_scores -> In v value_scores ->
    P b m v = true.
Proof.
  unfold check_factors. intros H b m v Hb Hm Hv.
  rewrite forallb_forall in H. specialize (H b Hb).
  rewrite forallb_forall in H. specialize (H m Hm).
  rewrite forallb_forall in H. exact (H v Hv).
Qed.

Lemma score_factors fs c :
  score_of fs c
  = fmul (fmul (base_score_of c) (column_modifier_of c))
         (value_modifier_of fs c).
Proof. reflexivity. Qed.

(** X9: every score is a finite number strictly above zero, between
    0.1 * 0.1 * 0.3 and 0.7 * 0.6 * 1.0. *)
Theorem X9_score_range :
  forall float_str c,
    flt (S754_zero false) (score_of float_str c) = true
    /\ fle (fmul (fmul (tenths 1) (tenths 1)) (tenths 3))
           (score_of float_str c) = true
    /\ fle (score_of float_str c)
           (fmul (fmul (tenths 7) (tenths 6)) (tenths 10)) = true.
Proof.
  intros fs c. rewrite score_factors.
  assert (H := @check_factors_spec
     (fun b m v =>
        flt (S754_zero false) (fmul (fmul b m) v)
        && fle (fmul (fmul (tenths 1) (tenths 1)) (tenths 3))
               (fmul (fmul b m) v)
        && fle (fmul (fmul b m) v)
               (fmul (fmul (tenths 7) (tenths 6)) (tenths 10)))
     ltac:(vm_compute; reflexivity)
     _ _ _ (base_score_in c) (column_modifier_in c) (value_modifier_in fs c)).
  cbv beta in H.
  apply andb_true_iff in H as [H H3]. apply andb_true_iff in H as [H1 H2].
  auto.
Qed.

Lemma lower_char_not_capital c : is_capital (lower_char c) = false.
Proof. destruct c as [[|] [|] [|] [|] [|] [|] [|] [|]]; vm_compute; reflexivity. Qed.

Lemma lower_no_capital s : existsb is_capital (lower s) = false.
Proof.
  induction s as [|c s IH]; [reflexivity|].
  unfold lower in *. simpl. now rewrite lower_char_not_capital, IH.
Qed.

Lemma capital_key_misses key s :
  existsb is_capital key = true -> text_eqb key (lower s) = false.
Proof.
  intro H. destruct (text_eqb key (lower s)) eqn:E; [|reflexivity].
  apply text_eqb_eq in E. rewrite E, lower_no_capital in H. discriminate.
Qed.

(** X10: the value modifier of any condition is decided by the lower-cased
    string form of the value alone: 0.3 for active, enabled, true and 1,
    0.4 for the ages 18, 21, 25, 30, 35, 40 and 50, and 1.0 for everything
    else.  The table keys US, USA and United States are never hit. *)
Theorem X10_value_modifier_table :
  forall float_str c,
    let key := lower (str_value float_str (value c)) in
    (In key common_states -> value_modifier_of float_str c = tenths 3)
    /\ (In key common_ages -> value_modifier_of float_str c = tenths 4)
    /\ (~ In key (common_states ++ common_ages) ->
        value_modifier_of float_str c = tenths 10).
Proof.
  intros fs c. cbv zeta. unfold value_modifier_of.
  set (s := str_value fs (value c)).
  unfold value_modifiers. cbn [dict_get].
  rewrite (@capital_key_misses (T "US") s eq_refl).
  rewrite (@capital_key_misses (T "USA") s eq_refl).
  rewrite (@capital_key_misses (T "United States") s eq_refl).
  generalize (lower s). intro key.
  repeat match goal with
         | |- context [text_eqb ?k key] =>
             let E := fresh "E" in
             let N := fresh "N" in
             destruct (text_eqb k key) eqn:E;
             [apply text_eqb_eq in E; subst key;
              repeat split; intro Hin;
              first [ reflexivity
                    | vm_compute in Hin; intuition discriminate
                    | exfalso; apply Hin;
                      unfold common_states, common_ages; cbn [In app];
                      auto 15 ]
             | assert (N : k <> key)
                 by (intro; subst key;
                     assert (text_eqb k k = true) by (now apply text_eqb_eq);
                     congruence);
               clear E]
         end.
  repeat split; intro Hin; try reflexivity;
    exfalso; unfold common_states, common_ages in Hin; cbn [In app] in Hin;
    intuition congruence.
Qed.

Lemma equality_base_score c :
  member (operator c) [T "="; T "=="] = true -> base_score_of c = tenths 1.
Proof.
  unfold member, base_score_of. cbn [existsb]. intro H.
  apply orb_true_iff in H as [H|H].
  - apply text_eqb_eq in H. rewrite H. reflexivity.
  - apply orb_true_iff in H as [H|H]; [|discriminate].
    apply text_eqb_eq in H. rewrite H. reflexivity.
Qed.

(** X11: for two conditions on the same column with the same value, the
    score grows with the base score of the operator; in particular a
    condition with the operator [=] or [==] never scores above the same
    condition with any other operator. *)
Theorem X11_operator_monotone :
  forall float_str c1 c2,
    column c1 = column c2 -> value c1 = value c2 ->
    (fle (base_score_of c1) (base_score_of c2) = true ->
     fle (score_of float_str c1) (score_of float_str c2) = true)
    /\ (member (operator c1) [T "="; T "=="] = true ->
        fle (score_of float_str c1) (score_of float_str c2) = true).
Proof.
  intros fs c1 c2 Hcol Hval. rewrite !score_factors.
  assert (Hm : column_modifier_of c1 = column_modifier_of c2)
    by (unfold column_modifier_of; now rewrite Hcol).
  assert (Hv : value_modifier_of fs c1 = value_modifier_of fs c2)
    by (unfold value_modifier_of; now rewrite Hval).
  rewrite Hm, Hv.
  assert (Mono : forall b1, In b1 base_scores ->
            fle b1 (base_score_of c2) = true ->
            fle (fmul (fmul b1 (column_modifier_of c2))
                      (value_modifier_of fs c2))
                (fmul (fmul (base_score_of c2) (column_modifier_of c2))
                      (value_modifier_of fs c2)) = true).
  { intros b1 Hb1 Hle.
    assert (H := @check_factors_spec
       (fun b m v =>
          forallb (fun b1 =>
            negb (fle b1 b) || fle (fmul (fmul b1 m) v) (fmul (fmul b m) v))
            base_scores)
       ltac:(vm_compute; reflexivity)
       _ _ _ (base_score_in c2) (column_modifier_in c2)
       (value_modifier_in fs c2)).
    cbv beta in H. rewrite forallb_forall in H. specialize (H b1 Hb1).
    rewrite Hle in H. exact H. }
  split.
  - intro Hle. apply Mono; [apply base_score_in | exact Hle].
  - intro Heq. rewrite (equality_base_score _ Heq).
    apply Mono; [unfold base_scores; cbn [In]; auto|].
    assert (H := @check_factors_spec
       (fun b _ _ => fle (tenths 1) b) ltac:(vm_compute; reflexivity)
       _ _ _ (base_score_in c2) (column_modifier_in c2)
       (value_modifier_in fs c2)).
    exact H.
Qed.

Lemma X11_operator_monotone_witness :
  (fle (base_score_of
          {| column := T "age"; operator := T "="; value := VInt 25;
             original_text := T "age = 25" |})
       (base_score_of cond_age_25) = true ->
   fle (score_of (fun _ => [])
          {| column := T "age"; operator := T "="; value := VInt 25;
             original_text := T "age = 25" |})
       (score_of (fun _ => []) cond_age_25) = true)
  /\ (member (T "=") [T "="; T "=="] = true ->
      fle (score_of (fun _ => [])
             {| column := T "age"; operator := T "="; value := VInt 25;
                original_text := T "age = 25" |})
          (score_of (fun _ => []) cond_age_25) = true).
Proof.
  apply (@X11_operator_monotone (fun _ => [])
           {| column := T "age"; operator := T "="; value := VInt 25;
              original_text := T "age = 25" |}
           cond_age_25); reflexivity.
Defined.

(** X12: the reasoning of a score is the words for the operator, then the
    column with its cardinality word (high for the modifier 0.1, medium for
    0.2, low otherwise), then, exactly when the value modifier is not 1.0,
    the remark that the value is common.  The remark that a value is
    uncommon is never written. *)
Theorem X12_reasoning_structure :
  forall float_str c,
    reasoning (score_condition float_str c)
    = operator_words c ++ T "; "
      ++ T "column '" ++ column c ++ T "' has "
      ++ cardinality_word (column_modifier_of c) ++ T " cardinality"
      ++ (if feq (value_modifier_of float_str c) (tenths 10) then []
          else T "; value '" ++ str_value float_str (value c)
               ++ T "' is common (less selective)").
Proof.
  intros fs c. unfold score_condition. cbn [reasoning].
  unfold _generate_reasoning. fold (operator_words c).
  generalize (operator_words c). intro ow.
  assert (Hm := column_modifier_in c).
  assert (Hv := value_modifier_in fs c).
  generalize dependent (value_modifier_of fs c). intros v Hv.
  generalize dependent (column_modifier_of c). intros m Hm.
  unfold column_scores in Hm. unfold value_scores in Hv.
  cbn [In] in Hm, Hv.
  destruct Hm as [<-|[<-|[<-|[<-|[<-|[]]]]]];
    destruct Hv as [<-|[<-|[<-|[]]]];
    match goal with
    | |- context [fle ?a ?b] =>
        let r := eval vm_compute in (fle a b) in
        change (fle a b) with r
    end;
    cbv iota;
    repeat match goal with
    | |- context [fle ?a ?b] =>
        let r := eval vm_compute in (fle a b) in
        change (fle a b) with r
    | |- context [flt ?a ?b] =>
        let r := eval vm_compute in (flt a b) in
        change (flt a b) with r
    | |- context [feq ?a ?b] =>
        let r := eval vm_compute in (feq a b) in
        change (feq a b) with r
    end;
    cbv iota; unfold cardinality_word;
    repeat match goal with
    | |- context [feq ?a ?b] =>
        let r := eval vm_compute in (feq a b) in
        change (feq a b) with r
    end;
    cbv iota; cbn [join app];
    repeat rewrite <- app_assoc; reflexivity.
Qed.

(** * Further properties of the optimizer *)

Lemma enumerate_length (A : Type) (l : list A) : forall n,
  length (enumerate l n) = length l.
Proof. induction l as [|x l IH]; intro n; simpl; [reflexivity | now rewrite IH]. Qed.

Lemma filter_steps_operation l : forall n,
  map operation_of (map filter_step (enumerate l n))
  = repeat (PStr (T "FILTER")) (length l).
Proof.
  induction l as [|c l IH]; intro n; [reflexivity|].
  cbn [enumerate map length repeat]. rewrite IH. reflexivity.
Qed.

Lemma filter_steps_number l : forall n,
  map step_of (map filter_step (enumerate l n))
  = map (fun i => PInt (Z.of_nat i)) (List.seq n (length l)).
Proof.
  induction l as [|c l IH]; intro n; [reflexivity|].
  cbn [enumerate map length List.seq]. rewrite IH. reflexivity.
Qed.

Lemma filter_steps_condition l : forall n,
  map condition_of (map filter_step (enumerate l n))
  = map (fun c => PStr (original_text c)) l.
Proof.
  induction l as [|c l IH]; intro n; [reflexivity|].
  cbn [enumerate map]. rewrite IH. reflexivity.
Qed.

Lemma step_of_first v (rest : plan_step) :
  step_of ((T "step", v) :: rest) = v.
Proof. reflexivity. Qed.

Lemma create_plan_shape l :
  length (_create_execution_plan l) = S (length l)
  /\ map operation_of (_create_execution_plan l)
     = repeat (PStr (T "FILTER")) (length l) ++ [PStr (T "RETURN")]
  /\ map step_of (_create_execution_plan l)
     = map (fun i => PInt (Z.of_nat i)) (List.seq 1 (S (length l)))
  /\ map condition_of (firstn (length l) (_create_execution_plan l))
     = map (fun c => PStr (original_text c)) l.
Proof.
  unfold _create_execution_plan. repeat split.
  - rewrite length_app, length_map, enumerate_length. simpl. lia.
  - rewrite map_app, filter_steps_operation. reflexivity.
  - rewrite map_app, filter_steps_number, seq_S, map_app.
    f_equal. cbn [map]. rewrite step_of_first.
    rewrite (Nat.add_comm (length l) 1). reflexivity.
  - rewrite firstn_app.
    rewrite length_map, enumerate_length, Nat.sub_diag. cbn [firstn].
    rewrite app_nil_r, firstn_all2
      by (rewrite length_map, enumerate_length; lia).
    apply filter_steps_condition.
Qed.

Lemma optimized_length fs pq :
  length (optimized_conditions (optimize fs pq)) = length (conditions pq).
Proof.
  rewrite optimized_conditions_sorted. apply Permutation_length, sorted_perm.
Qed.

(** X13: the execution plan of any query has one step more than it has
    conditions (two steps when it has none), its steps are numbered 1, 2,
    ... in order, its last step is a RETURN, and for a query with
    conditions the steps before it are FILTER steps that carry the
    original texts of the optimized conditions, in that order. *)
Theorem X13_execution_plan_shape :
  forall float_str pq,
    let plan := execution_plan (optimize float_str pq) in
    let n := length (conditions pq) in
    length plan = S (Nat.max 1 n)
    /\ map step_of plan
       = map (fun i => PInt (Z.of_nat i)) (List.seq 1 (length plan))
    /\ last (map operation_of plan) (PStr []) = PStr (T "RETURN")
    /\ (conditions pq <> [] ->
        map operation_of plan
        = repeat (PStr (T "FILTER")) n ++ [PStr (T "RETURN")]
        /\ map condition_of (firstn n plan)
           = map (fun c => PStr (original_text c))
                 (optimized_conditions (optimize float_str pq))).
Proof.
  intros fs pq. cbv zeta.
  assert (Hlen := optimized_length fs pq).
  unfold optimize in *. destruct (conditions pq) as [|c l] eqn:E.
  - cbn [execution_plan _create_unoptimized_query length Nat.max].
    repeat split; try reflexivity; congruence.
  - cbn [execution_plan optimized_conditions] in *.
    set (opt := _apply_optimization_rules fs (c :: l)) in *.
    destruct (create_plan_shape opt) as (H1 & H2 & H3 & H4).
    rewrite Hlen in *. repeat split.
    + rewrite H1. cbn [length]. lia.
    + rewrite H3, H1. reflexivity.
    + rewrite H2. apply last_last.
    + exact H2.
    + exact H4.
Qed.

Lemma fle_refl_scores x : In x all_scores -> fle x x = true.
Proof.
  intro Hx.
  exact (@check3_spec (fun x _ _ => fle x x) ltac:(vm_compute; reflexivity)
           x x x Hx Hx Hx).
Qed.

(** X14: the first optimized condition has the least score of all the
    conditions of the query. *)
Theorem X14_first_is_most_selective :
  forall float_str pq c0 rest c,
    optimized_conditions (optimize float_str pq) = c0 :: rest ->
    In c (conditions pq) ->
    fle (score_of float_str c0) (score_of float_str c) = true.
Proof.
  intros fs pq c0 rest c Hopt Hin.
  assert (Hs := sorted_strongly (score_of fs) (score_in_all fs)
                  (conditions pq)).
  assert (Hp := sorted_perm (score_of fs) (conditions pq)).
  rewrite optimized_conditions_sorted in Hopt. rewrite Hopt in Hs, Hp.
  apply Permutation_sym in Hp.
  apply (Permutation_in _ Hp) in Hin.
  inversion Hs as [|? ? _ Hall]; subst.
  destruct Hin as [<-|Hin].
  - apply fle_refl_scores, score_in_all.
  - rewrite Forall_forall in Hall. exact (Hall c Hin).
Qed.

Lemma X14_first_is_most_selective_witness :
  fle (score_of (fun _ => []) cond_country_US)
      (score_of (fun _ => []) cond_age_25) = true.
Proof.
  apply (@X14_first_is_most_selective (fun _ => [])
           {| table_name := T "users";
              conditions := [cond_age_25; cond_country_US];
              original_query := T "q" |}
           cond_country_US [cond_age_25] cond_age_25).
  - vm_compute. reflexivity.
  - simpl. left. reflexivity.
Defined.

Section SortedInput.

Variable A : Type.
Variable key : A -> pyfloat.
Hypothesis key_in : forall a, In (key a) all_scores.

Lemma scores_le_not_gt x y :
  In x all_scores -> In y all_scores -> fle y x = true -> flt x y = false.
Proof.
  intros Hx Hy.
  assert (H := @check3_spec (fun x y _ => negb (fle y x) || negb (flt x y))
                 ltac:(vm_compute; reflexivity) x y x Hx Hy Hx).
  simpl in H. intro E. rewrite E in H. simpl in H.
  now destruct (flt x y).
Qed.

Lemma insert_by_last x acc :
  Forall (fun y => key_le key y x) acc ->
  insert_by key x acc = acc ++ [x].
Proof.
  induction 1 as [|y acc Hy _ IH]; [reflexivity|].
  cbn [insert_by app].
  rewrite (@scores_le_not_gt (key x) (key y)); auto.
  now rewrite IH.
Qed.

Lemma strongly_sorted_app_head (l : list A) x acc :
  StronglySorted (key_le key) (acc ++ x :: l) ->
  Forall (fun y => key_le key y x) acc.
Proof.
  induction acc as [|y acc IH]; intro H; [constructor|].
  simpl in H. inversion H as [|? ? Hs Hall]; subst.
  constructor; [|now apply IH].
  rewrite Forall_forall in Hall. apply Hall.
  apply in_or_app. right. now left.
Qed.

Lemma fold_insert_sorted_input l : forall acc,
  StronglySorted (key_le key) (acc ++ l) ->
  fold_left (fun acc x => insert_by key x acc) l acc = acc ++ l.
Proof.
  induction l as [|x l IH]; intros acc H; simpl.
  - now rewrite app_nil_r.
  - assert (Hall := @strongly_sorted_app_head l x acc H).
    rewrite (@insert_by_last x acc Hall).
    rewrite IH; rewrite <- app_assoc; [reflexivity | exact H].
Qed.

Lemma sorted_fixpoint l :
  StronglySorted (key_le key) l -> sorted key l = l.
Proof. intro H. unfold sorted. now rewrite fold_insert_sorted_input. Qed.

End SortedInput.

Lemma key_le_transitive fs :
  Relations_1.Transitive (key_le (score_of fs)).
Proof.
  intros a b c Hab Hbc. unfold key_le in *.
  apply scores_le_trans with (y := score_of fs b); auto using score_in_all.
Qed.

(** X15: conditions that already stand in ascending order of score are
    left in place by [optimize]. *)
Theorem X15_sorted_input_unchanged :
  forall float_str pq,
    Sorted (fun a b => fle (score_of float_str a) (score_of float_str b) = true)
           (conditions pq) ->
    optimized_conditions (optimize float_str pq) = conditions pq.
Proof.
  intros fs pq H. rewrite optimized_conditions_sorted.
  apply (@sorted_fixpoint _ (score_of fs) (score_in_all fs)).
  apply Sorted_StronglySorted; [apply key_le_transitive | exact H].
Qed.

Lemma X15_sorted_input_unchanged_witness :
  optimized_conditions
    (optimize (fun _ => [])
       {| table_name := T "users";
          conditions := [cond_country_US; cond_age_25];
          original_query := T "q" |})
  = [cond_country_US; cond_age_25].
Proof.
  apply (@X15_sorted_input_unchanged (fun _ => [])
           {| table_name := T "users";
              conditions := [cond_country_US; cond_age_25];
              original_query := T "q" |}).
  repeat constructor; vm_compute; reflexivity.
Defined.

(** X16: optimizing is idempotent: optimizing the optimized conditions
    again changes nothing. *)
Theorem X16_optimize_idempotent :
  forall float_str pq,
    optimized_conditions
      (optimize float_str
         {| table_name := table_name pq;
            conditions := optimized_conditions (optimize float_str pq);
            original_query := original_query pq |})
    = optimized_conditions (optimize float_str pq).
Proof.
  intros fs pq. rewrite !optimized_conditions_sorted. cbn [conditions].
  apply (@sorted_fixpoint _ (score_of fs) (score_in_all fs)).
  apply sorted_strongly, score_in_all.
Qed.

(** X17: a query with exactly one condition is returned unchanged, with a
    plan of one FILTER and one RETURN step and the summary that no
    optimization is needed. *)
Theorem X17_single_condition :
  forall float_str pq c,
    conditions pq = [c] ->
    optimized_conditions (optimize float_str pq) = [c]
    /\ map operation_of (execution_plan (optimize float_str pq))
       = [PStr (T "FILTER"); PStr (T "RETURN")]
    /\ optimization_summary (optimize float_str pq)
       = T "No optimization needed - single condition or no conditions".
Proof.
  intros fs pq c H. unfold optimize. rewrite H.
  cbn [optimized_conditions execution_plan optimization_summary].
  rewrite apply_rules_sorted. repeat split.
Qed.

Lemma X17_single_condition_witness :
  optimized_conditions
    (optimize (fun _ => [])
       {| table_name := T "users"; conditions := [cond_age_25];
          original_query := T "SELECT * FROM users WHERE age > 25" |})
  = [cond_age_25]
  /\ map operation_of
       (execution_plan
          (optimize (fun _ => [])
             {| table_name := T "users"; conditions := [cond_age_25];
                original_query := T "SELECT * FROM users WHERE age > 25" |}))
     = [PStr (T "FILTER"); PStr (T "RETURN")]
  /\ optimization_summary
       (optimize (fun _ => [])
          {| table_name := T "users"; conditions := [cond_age_25];
             original_query := T "SELECT * FROM users WHERE age > 25" |})
     = T "No optimization needed - single condition or no conditions".
Proof.
  apply (@X17_single_condition (fun _ => [])
           {| table_name := T "users"; conditions := [cond_age_25];
              original_query := T "SELECT * FROM users WHERE age > 25" |}
           cond_age_25).
  reflexivity.
Defined.

(** * Properties of the reports *)

(** X18: for two conditions or more the recommendation of the scorer lists
    the conditions in the order [optimize] returns them. *)
Theorem X18_recommendation_order :
  forall float_str format_3f pq,
    2 <= length (conditions pq) ->
    get_optimization_recommendation float_str format_3f (conditions pq)
    = T "Recommended execution order (most selective first):" ++ nl
      ++ concat
           (map (recommendation_item format_3f)
              (enumerate
                 (map (score_condition float_str)
                    (optimized_conditions (optimize float_str pq))) 1)).
Proof.
  intros fs fmt pq H. rewrite optimized_conditions_sorted.
  destruct (conditions pq) as [|a [|b l]]; simpl in H; try lia.
  unfold get_optimization_recommendation.
  rewrite sorted_map. reflexivity.
Qed.

Lemma X18_recommendation_order_witness :
  get_optimization_recommendation (fun _ => []) (fun _ => [])
    [cond_age_25; cond_country_US]
  = T "Recommended execution order (most selective first):" ++ nl
    ++ concat
         (map (recommendation_item (fun _ => []))
            (enumerate
               (map (score_condition (fun _ => []))
                  (optimized_conditions
                     (optimize (fun _ => [])
                        {| table_name := T "users";
                           conditions := [cond_age_25; cond_country_US];
                           original_query := T "q" |}))) 1)).
Proof.
  apply (@X18_recommendation_order (fun _ => []) (fun _ => [])
           {| table_name := T "users";
              conditions := [cond_age_25; cond_country_US];
              original_query := T "q" |}).
  simpl. lia.
Defined.

Lemma is_infix_prefix needle rest : is_infix needle (needle ++ rest) = true.
Proof.
  assert (H : strip_prefix needle (needle ++ rest) = Some rest)
    by now apply strip_prefix_app.
  destruct needle as [|c n]; destruct rest as [|d r]; simpl in *;
    try reflexivity; now rewrite H.
Qed.

Lemma is_infix_app_r needle a b :
  is_infix needle b = true -> is_infix needle (a ++ b) = true.
Proof.
  intro H. induction a as [|c a IH]; [exact H|].
  simpl. destruct (strip_prefix needle (c :: a ++ b)); [reflexivity | exact IH].
Qed.

Lemma is_infix_prefix3 (a b c rest : text) :
  is_infix (a ++ b ++ c) (a ++ b ++ c ++ rest) = true.
Proof.
  replace (a ++ b ++ c ++ rest) with ((a ++ b ++ c) ++ rest)
    by (repeat rewrite <- app_assoc; reflexivity).
  apply is_infix_prefix.
Qed.

Ltac find_infix :=
  repeat rewrite <- app_assoc;
  first [ apply is_infix_prefix
        | apply is_infix_prefix3
        | apply is_infix_app_r; find_infix ].

(** X19: for a query with at least one condition the explanation holds its
    four headings, the original query and the recommendation of the
    scorer. *)
Theorem X19_explanation_contents :
  forall float_str format_3f pq,
    conditions pq <> [] ->
    let e := explain_optimization float_str format_3f pq in
    is_infix (T "QUERY OPTIMIZATION EXPLANATION") e = true
    /\ is_infix (T "Original Query: " ++ original_query pq ++ nl) e = true
    /\ is_infix (T "OPTIMIZATION RULES APPLIED") e = true
    /\ is_infix (T "CONDITION ANALYSIS") e = true
    /\ is_infix
         (T "OPTIMIZATION RECOMMENDATION:" ++ nl
          ++ get_optimization_recommendation float_str format_3f
               (conditions pq)) e = true.
Proof.
  intros fs fmt pq H. cbv zeta. unfold explain_optimization.
  destruct (conditions pq) as [|c l] eqn:E; [congruence|].
  generalize (c :: l). intro conds.
  generalize (concat (map (analysis_item fs fmt) (enumerate conds 1))).
  intro analysis.
  generalize (get_optimization_recommendation fs fmt conds). intro rec.
  generalize (original_query pq). intro oq.
  generalize explanation_benefits. intro benefits.
  split; [|split; [|split; [|split]]].
  - apply is_infix_prefix.
  - find_infix.
  - unfold explanation_rules.
    change (T "OPTIMIZATION RULES APPLIED:")
      with (T "OPTIMIZATION RULES APPLIED" ++ T ":").
    find_infix.
  - change (T "CONDITION ANALYSIS:") with (T "CONDITION ANALYSIS" ++ T ":").
    generalize explanation_rules. intro rules.
    find_infix.
  - generalize explanation_rules. intro rules.
    find_infix.
Qed.

Lemma X19_explanation_contents_witness :
  let pq := {| table_name := T "users"; conditions := [cond_age_25];
               original_query := T "SELECT * FROM users WHERE age > 25" |} in
  let e := explain_optimization (fun _ => []) (fun _ => []) pq in
  is_infix (T "QUERY OPTIMIZATION EXPLANATION") e = true
  /\ is_infix (T "Original Query: " ++ original_query pq ++ nl) e = true
  /\ is_infix (T "OPTIMIZATION RULES APPLIED") e = true
  /\ is_infix (T "CONDITION ANALYSIS") e = true
  /\ is_infix
       (T "OPTIMIZATION RECOMMENDATION:" ++ nl
        ++ get_optimization_recommendation (fun _ => []) (fun _ => [])
             (conditions pq)) e = true.
Proof.
  apply (@X19_explanation_contents (fun _ => []) (fun _ => [])
           {| table_name := T "users"; conditions := [cond_age_25];
              original_query := T "SELECT * FROM users WHERE age > 25" |}).
  simpl. discriminate.
Defined.
